(** * Prismatic Silk: silhouette sampling, note placement and playback

    A shallow embedding of the core of [src/App.tsx]:
    - the pixel scan of [processSilhouette] (the two nested [for] loops that
      fill [validSpots]),
    - the [melody.map] callback that binds every note to a spot,
    - [togglePlayback], the asynchronous playback loop, as a transition
      system over the React state and the [playbackRef] cell.

    JavaScript numbers that only ever hold small non-negative integers
    (loop counters, array indices, pixel channels, coordinates) are [nat].
    Arrays are lists read with stdpp's lookup [l !! i]; reading past the end
    gives [None], which stands for [undefined]. *)

From Stdlib Require Import String Ascii DecimalString DecimalNat Decimal.
From Stdlib Require Import QArith_base.
From stdpp Require Import list sorting.

Local Open Scope nat_scope.

(** ** The pixel scan *)

Module Sampler.

(** [{ x: number, y: number }] *)
Record Spot := mkSpot { x : nat; y : nat }.

#[global] Instance Spot_eq_dec : EqDecision Spot.
Proof. solve_decision. Defined.

(** [for (let i = start; i < bound; i += stp) body(i)], the loop state being
    threaded through [body]. The fuel bounds the number of iterations; [None]
    means the fuel ran out (or the body failed). *)
Fixpoint for_loop {St : Type} (fuel : nat) (i bound stp : nat)
    (body : nat → St → option St) (s : St) : option St :=
  if bool_decide (i < bound) then
    match fuel with
    | 0 => None
    | S fuel' =>
        match body i s with
        | Some s' => for_loop fuel' (i + stp) bound stp body s'
        | None => None
        end
    end
  else Some s.

(** [v < t] for a value read from an array: [undefined < t] is [false]. *)
Definition lt_num (v : option nat) (t : nat) : bool :=
  match v with
  | Some n => bool_decide (n < t)
  | None => false
  end.

Definition step : nat := 15.

(** The test of line 45 on the pixel at [(px, py)] of the 500 x 500 RGBA
    buffer [data]. *)
Definition is_dark (data : list nat) (px py : nat) : bool :=
  let index := (py * 500 + px) * 4 in
  let r := data !! index in
  let g := data !! (index + 1) in
  let b := data !! (index + 2) in
  lt_num r 248 || lt_num g 248 || lt_num b 248.

(** Body of the inner loop: [if (...) validSpots.push({ x, y })]. *)
Definition scan_pixel (data : list nat) (py px : nat)
    (validSpots : list Spot) : option (list Spot) :=
  Some (if is_dark data px py then validSpots ++ [mkSpot px py]
        else validSpots).

(** Body of the outer loop: the inner [for] over [x]. *)
Definition scan_row (data : list nat) (py : nat)
    (validSpots : list Spot) : option (list Spot) :=
  for_loop 500 step (500 - step) step (scan_pixel data py) validSpots.

(** Lines 35-49: [validSpots] after the two loops. *)
Definition sampleSpots (data : list nat) : option (list Spot) :=
  for_loop 500 step (500 - step) step (scan_row data) [].

(** What one run of the inner loop body pushes for the pixel [(px, py)]. *)
Definition pushed (data : list nat) (py px : nat) : list Spot :=
  if is_dark data px py then [mkSpot px py] else [].

(** The first [n] values of a loop counter that starts at [i] and grows by
    [stp]. *)
Fixpoint counter_values (n i stp : nat) : list nat :=
  match n with
  | 0 => []
  | S n' => i :: counter_values n' (i + stp) stp
  end.

(** Row-major order on spots: [y] first, then [x]. *)
Definition row_major (a b : Spot) : Prop :=
  y a < y b ∨ (y a = y b ∧ x a < x b).

End Sampler.

(** ** Note placement *)

Module Placer.
Import Sampler.

(** [NoteData] of [./types]. The frequency (Hz) and the duration (seconds)
    are fractions; the code only ever copies them. *)
Record NoteData := mkNote { value : string; frequency : Q; duration : Q }.

(** [PlacedNote], built as [{ ...note, id, x, y }]: the fields of the note,
    kept together as [note], an [id] and the coordinates of the spot. *)
Record PlacedNote := mkPlaced {
  note : NoteData;
  id : string;
  x : nat;
  y : nat
}.

(** The spot a placed note sits on. *)
Definition coordinate (p : PlacedNote) : Spot := mkSpot (x p) (y p).

(** A result of [Math.random()]: a double in [0, 1), given as the fraction
    [num / den] that it is. *)
Record Rand := mkRand { num : Z; den : Z }.

(** What the proofs use of the range of [Math.random()]: the fraction is
    not negative and at most [1 - 2^-53], the largest double below one.
    Every double in [0, 1) satisfies it. *)
Definition in_unit (u : Rand) : Prop :=
  (0 ≤ num u ∧ 0 < den u ∧ num u * 2 ^ 53 ≤ den u * (2 ^ 53 - 1))%Z.

(** The integer nearest to [a / b], ties to the even one, for [0 <= a] and
    [0 < b]. *)
Definition round_half_even (a b : Z) : Z :=
  (let q := a / b in
   let r := a mod b in
   if 2 * r <? b then q
   else if b <? 2 * r then q + 1
   else if Z.even q then q else q + 1)%Z.

(** The double nearest to [a / b] (IEEE 754 binary64, round to nearest,
    ties to even), for [0 <= a] and [0 < b], as a multiple of [2^-1074],
    the smallest positive double: every finite double is such a multiple.
    With [y = (a / b) * 2^1074], the result keeps 53 significant bits of [y]
    ([s] is the number of bits dropped), or all of [y] below [2^52], where
    the doubles are subnormal. Overflow to [Infinity] is left out: a product
    of a number below one and an array length is far below [2^1024]. *)
Definition nearest_double (a b : Z) : Z :=
  (let y := a * 2 ^ 1074 in
   let s := Z.max (Z.log2 (y / b)) 52 - 52 in
   round_half_even y (b * 2 ^ s) * 2 ^ s)%Z.

(** [Math.floor(u * n)]: the product is the double nearest to the exact
    product, as IEEE 754 multiplication gives it, and [Math.floor] of a
    double is exact. *)
Definition floor_mul (u : Rand) (n : nat) : nat :=
  Z.to_nat (nearest_double (num u * Z.of_nat n) (den u) / 2 ^ 1074).

(** What the callback of [melody.map] reads and writes besides its
    arguments: the array [validSpots] and the number of calls of
    [Math.random] made so far. *)
Record PState := mkPState { validSpots : list Spot; calls : nat }.

(** Computations of the callback: state passing over [PState], [None] being
    a thrown [TypeError]. *)
Definition Eff (A : Type) : Type := PState → option (A * PState).

#[global] Instance Eff_ret : MRet Eff := λ A a s, Some (a, s).
#[global] Instance Eff_bind : MBind Eff := λ A B f m s,
  match m s with
  | Some (a, s') => f a s'
  | None => None
  end.

Definition throw {A : Type} : Eff A := λ _, None.

Section WithRandom.
(** The random source, as the sequence of results of [Math.random()], and
    the conversion of such a result to a string in a template literal. *)
Variable rng : nat → Rand.
Variable number_to_string : Rand → string.

Definition math_random : Eff Rand :=
  λ s, Some (rng (calls s), mkPState (validSpots s) (S (calls s))).

Definition spots_length : Eff nat :=
  λ s, Some (length (validSpots s), s).

(** [validSpots[i]], [undefined] ([None]) out of range. *)
Definition spot_at (i : nat) : Eff (option Spot) :=
  λ s, Some (validSpots s !! i, s).

(** [validSpots.splice(i, 1)] *)
Definition splice (i : nat) : Eff unit :=
  λ s, Some (tt, mkPState (delete i (validSpots s)) (calls s)).

(** [spot.x] and [spot.y]: a [TypeError] on [undefined]. *)
Definition fields (spot : option Spot) : Eff (nat * nat) :=
  match spot with
  | Some p => mret (Sampler.x p, Sampler.y p)
  | None => throw
  end.

(** The decimal digits of an index, as a template literal prints it. *)
Definition index_to_string (n : nat) : string :=
  NilEmpty.string_of_uint (Nat.to_uint n).

(** [`note-${idx}-${r}`] *)
Definition note_id (idx : nat) (r : Rand) : string :=
  ("note-" ++ index_to_string idx ++ "-" ++ number_to_string r)%string.

(** The callback of [melody.map], lines 56-67. [melody_length] is
    [melody.length]. *)
Definition place_note (melody_length : nat) (n : NoteData) (idx : nat)
    : Eff PlacedNote :=
  u ← math_random;
  len ← spots_length;
  let spotIndex := floor_mul u len in
  spot ← spot_at spotIndex;
  len' ← spots_length;
  _ ← (if bool_decide (melody_length < len') then splice spotIndex
       else mret tt);
  r ← math_random;
  xy ← fields spot;
  mret (mkPlaced n (note_id idx r) xy.1 xy.2).

(** [Array.prototype.map]: the callback on every element in order, with
    its index. *)
Fixpoint map_from (cb : NoteData → nat → Eff PlacedNote)
    (idx : nat) (melody : list NoteData) : Eff (list PlacedNote) :=
  match melody with
  | [] => mret []
  | n :: rest =>
      p ← cb n idx;
      ps ← map_from cb (S idx) rest;
      mret (p :: ps)
  end.

Definition placeNotes (melody : list NoteData) : Eff (list PlacedNote) :=
  map_from (place_note (length melody)) 0 melody.

(** The candidate sets seen by the successive calls of the callback: the
    value of [validSpots] at the start of every call and, last, after the
    final one. It follows [map_from] and stops where a call throws. *)
Fixpoint spots_trace (melody_length idx : nat) (melody : list NoteData)
    (s : PState) : list (list Spot) :=
  validSpots s ::
  match melody with
  | [] => []
  | n :: rest =>
      match place_note melody_length n idx s with
      | Some (_, s') => spots_trace melody_length (S idx) rest s'
      | None => []
      end
  end.
End WithRandom.

End Placer.

(** ** The component state and one generation cycle *)

Module App.
Import Sampler Placer.

(** The [useState] cells the core reads or writes, and the [playbackRef]
    cell. *)
Record State := mkState {
  isLoading : bool;
  placedNotes : list PlacedNote;
  currentNoteIndex : option nat;
  isPlaying : bool;
  error : option string;
  playbackRef : bool
}.

Definition setIsLoading (b : bool) (a : State) : State :=
  mkState b (placedNotes a) (currentNoteIndex a) (isPlaying a) (error a)
    (playbackRef a).
Definition setPlacedNotes (l : list PlacedNote) (a : State) : State :=
  mkState (isLoading a) l (currentNoteIndex a) (isPlaying a) (error a)
    (playbackRef a).
Definition setCurrentNoteIndex (i : option nat) (a : State) : State :=
  mkState (isLoading a) (placedNotes a) i (isPlaying a) (error a)
    (playbackRef a).
Definition setIsPlaying (b : bool) (a : State) : State :=
  mkState (isLoading a) (placedNotes a) (currentNoteIndex a) b (error a)
    (playbackRef a).
Definition setError (e : option string) (a : State) : State :=
  mkState (isLoading a) (placedNotes a) (currentNoteIndex a) (isPlaying a) e
    (playbackRef a).
Definition setPlaybackRef (b : bool) (a : State) : State :=
  mkState (isLoading a) (placedNotes a) (currentNoteIndex a) (isPlaying a)
    (error a) b.

(** The state of a freshly mounted component. *)
Definition initial : State := mkState false [] None false None false.

(** How a handler ends: normally, with the new state and the number of
    [Math.random] calls made so far; by an uncaught [TypeError]; or the model
    of a loop ran out of fuel. *)
Inductive Outcome :=
  | Done (a : State) (calls : nat)
  | Threw
  | OutOfFuel.

Definition no_shape_message : string :=
  "Could not trace the silk shape clearly. Please try a simpler object.".

Section WithRandom.
Variable rng : nat → Rand.
Variable number_to_string : Rand → string.

(** The body of [img.onload] from line 29 on, which runs when line 27 found
    a 2d context, on the pixel buffer [data] that [getImageData] returns:
    the scan, the guard on an empty [validSpots], the [map] and
    [setPlacedNotes]. *)
Definition onload (data : list nat) (melody : list NoteData)
    (calls0 : nat) (a : State) : Outcome :=
  match sampleSpots data with
  | None => OutOfFuel
  | Some validSpots =>
      if bool_decide (length validSpots = 0) then
        Done (setError (Some no_shape_message) a) calls0
      else
        match placeNotes rng number_to_string melody
                (mkPState validSpots calls0) with
        | Some (newPlacedNotes, s) =>
            Done (setPlacedNotes newPlacedNotes a) (Placer.calls s)
        | None => Threw
        end
  end.

(** [img.onload], lines 24-70, whole. [ctx] tells whether
    [canvas.getContext('2d')] gave a context; without one the handler
    returns at line 27, before it reads a pixel. The handler runs when the
    image has loaded, in whatever state [a] the component then is. *)
Definition img_onload (ctx : bool) (data : list nat) (melody : list NoteData)
    (calls0 : nat) (a : State) : Outcome :=
  if negb ctx then Done a calls0
  else onload data melody calls0 a.

(** What the two generation services gave [handleGenerate]. *)
Inductive Generated :=
  | GenImage (data : list nat) (melody : list NoteData)
  | GenNoImage
  | GenFailed.

(** Lines 75-80: the resets at the start of [handleGenerate]. *)
Definition beginGenerate (a : State) : State :=
  setPlaybackRef false
    (setIsPlaying false
      (setCurrentNoteIndex None
        (setPlacedNotes [] (setError None (setIsLoading true a))))).

(** [handleGenerate] for a prompt that is not blank, followed at once by
    the [onload] handler it installs, on a canvas that has a 2d context and
    with no other event in between. [processSilhouette] returns as soon as
    the handler is set, so [isLoading] is cleared before [onload] runs. *)
Definition generationCycle (g : Generated) (calls0 : nat) (a : State)
    : Outcome :=
  let a1 := beginGenerate a in
  match g with
  | GenImage data melody => onload data melody calls0 (setIsLoading false a1)
  | GenNoImage =>
      Done (setIsLoading false
              (setError (Some "Failed to generate silk silhouette."%string)
                 a1))
           calls0
  | GenFailed =>
      Done (setIsLoading false
              (setError (Some "An error occurred during generation."%string)
                 a1))
           calls0
  end.
End WithRandom.

End App.

(** ** Playback *)

Module Scheduler.
Import Placer App.

(** An invocation of [togglePlayback] that is suspended at the [await] of
    line 118: the [placedNotes] its closure holds and the loop counter [i]
    of the note whose tone it waits for. *)
Record Pass := mkPass {
  pass_id : nat;
  pass_notes : list PlacedNote;
  pass_index : nat
}.

(** The component state together with the suspended invocations, the calls
    of [audioPlayer.playNote] made so far (invocation and index, oldest
    first) and the number of invocations that started a pass. *)
Record Sched := mkSched {
  app : State;
  passes : list Pass;
  played : list (nat * nat);
  started : nat
}.

Definition with_app (f : State → State) (s : Sched) : Sched :=
  mkSched (f (app s)) (passes s) (played s) (started s).

(** Lines 121-123, after the loop. *)
Definition finish (s : Sched) : Sched :=
  with_app (λ a, setPlaybackRef false
                   (setIsPlaying false (setCurrentNoteIndex None a))) s.

(** The loop of lines 113-119 from the test [i < placedNotes.length] on, up
    to the next [await] or to the end of the function. *)
Definition loop_head (pid : nat) (notes : list PlacedNote) (i : nat)
    (s : Sched) : Sched :=
  if bool_decide (i < length notes) then
    if negb (playbackRef (app s)) then finish s
    else
      mkSched (setCurrentNoteIndex (Some i) (app s))
              (passes s ++ [mkPass pid notes i])
              (played s ++ [(pid, i)])
              (started s)
  else finish s.

(** [togglePlayback], lines 101-124, up to its first [await]. The handler
    reads [isPlaying] and [placedNotes] of the latest render. *)
Definition togglePlayback (s : Sched) : Sched :=
  if isPlaying (app s) then
    with_app (λ a, setIsPlaying false (setPlaybackRef false a)) s
  else if bool_decide (length (placedNotes (app s)) = 0) then s
  else
    let s1 :=
      mkSched (setPlaybackRef true (setIsPlaying true (app s)))
              (passes s) (played s) (S (started s)) in
    loop_head (started s) (placedNotes (app s)) 0 s1.

Definition find_pass (pid : nat) (s : Sched) : option Pass :=
  snd <$> list_find (λ p, pass_id p = pid) (passes s).

Definition drop_pass (pid : nat) (s : Sched) : Sched :=
  mkSched (app s) (filter (λ p, pass_id p ≠ pid) (passes s)) (played s)
          (started s).

(** The promise of [playNote] awaited by invocation [pid] resolves: the loop
    goes on with [i++]. *)
Definition noteDone (pid : nat) (s : Sched) : Sched :=
  match find_pass pid s with
  | Some p =>
      loop_head pid (pass_notes p) (S (pass_index p)) (drop_pass pid s)
  | None => s
  end.

(** The promise rejects: the [await] throws, nothing catches it inside
    [togglePlayback], and the invocation ends there. *)
Definition noteFailed (pid : nat) (s : Sched) : Sched :=
  match find_pass pid s with
  | Some p => drop_pass pid s
  | None => s
  end.

Inductive Event :=
  | Toggle
  | NoteDone (pid : nat)
  | NoteFailed (pid : nat).

Definition dispatch (s : Sched) (e : Event) : Sched :=
  match e with
  | Toggle => togglePlayback s
  | NoteDone pid => noteDone pid s
  | NoteFailed pid => noteFailed pid s
  end.

Definition run (s : Sched) (es : list Event) : Sched := foldl dispatch s es.

(** The scheduler of a component whose generation cycle produced [notes]. *)
Definition loaded (notes : list PlacedNote) : Sched :=
  mkSched (setPlacedNotes notes initial) [] [] 0.

(** [start()] and [stop()] of the control surface are both the one button:
    a toggle is a start when [isPlaying] is false and a stop otherwise. *)
Definition is_start (s : Sched) (e : Event) : Prop :=
  e = Toggle ∧ isPlaying (app s) = false.

(** A sequence of events in which the button is never pressed to start while
    an earlier invocation is still suspended. *)
Fixpoint calm (s : Sched) (es : list Event) : Prop :=
  match es with
  | [] => True
  | e :: es' =>
      (is_start s e → passes s = []) ∧ calm (dispatch s e) es'
  end.

(** The indices that invocation [pid] handed to [playNote], oldest first. *)
Definition played_by (pid : nat) (s : Sched) : list nat :=
  (filter (λ e, e.1 = pid) (played s)).*2.

(** What every state reached from [loaded notes] satisfies: the suspended
    invocations have distinct numbers, each has so far handed to [playNote]
    the indices [0 .. pass_index] in that order, and every invocation,
    suspended or over, has played an initial segment of the sequence. *)
Definition consistent (notes : list PlacedNote) (s : Sched) : Prop :=
  placedNotes (app s) = notes
  ∧ NoDup (pass_id <$> passes s)
  ∧ (∀ p, p ∈ passes s →
       pass_id p < started s
       ∧ pass_notes p = notes
       ∧ pass_index p < length notes
       ∧ played_by (pass_id p) s = seq 0 (S (pass_index p)))
  ∧ (∀ pid, ∃ k, k ≤ length notes ∧ played_by pid s = seq 0 k)
  ∧ (∀ pid, started s ≤ pid → played_by pid s = []).

End Scheduler.

(** ** The rest of the component *)

Module Ui.
Import Sampler Placer App Scheduler.

(** The UTF-16 code units that [String.prototype.trim] strips: the
    WhiteSpace and LineTerminator code points of ECMAScript. *)
Definition white_space (c : N) : bool :=
  ((c =? 0x9) || (c =? 0xA) || (c =? 0xB) || (c =? 0xC) || (c =? 0xD)
   || (c =? 0x20) || (c =? 0xA0) || (c =? 0x1680)
   || ((0x2000 <=? c) && (c <=? 0x200A))
   || (c =? 0x2028) || (c =? 0x2029) || (c =? 0x202F) || (c =? 0x205F)
   || (c =? 0x3000) || (c =? 0xFEFF))%N.

(** [s.trimStart()] on a string given by its code units. *)
Fixpoint trimStart (s : list N) : list N :=
  match s with
  | [] => []
  | c :: s' => if white_space c then trimStart s' else s
  end.

(** [s.trim()] *)
Definition trim (s : list N) : list N :=
  reverse (trimStart (reverse (trimStart s))).

Section WithRandom.
Variable rng : nat → Rand.
Variable number_to_string : Rand → string.

(** [handleGenerate], lines 73-99, together with the [onload] handler it
    installs: the guard [if (!prompt.trim()) return], then the cycle. *)
Definition handleGenerate (prompt : list N) (g : Generated) (calls0 : nat)
    (a : State) : Outcome :=
  if bool_decide (trim prompt = []) then Done a calls0
  else generationCycle rng number_to_string g calls0 a.
End WithRandom.

(** Lines 75-80 on a component that may have invocations of
    [togglePlayback] suspended: the resets leave those alone. *)
Definition startGenerate (s : Sched) : Sched := with_app beginGenerate s.

(** What the rest of a generation cycle writes once the resets are done:
    an error message (lines 52, 92 and 95), [setIsLoading(false)] (line 97)
    and the new notes (line 69). *)
Inductive CycleWrite :=
  | WriteError (msg : string)
  | WriteLoaded
  | WritePlaced (l : list PlacedNote).

Definition cycleWrite (a : State) (w : CycleWrite) : State :=
  match w with
  | WriteError msg => setError (Some msg) a
  | WriteLoaded => setIsLoading false a
  | WritePlaced l => setPlacedNotes l a
  end.

(** Such writes, in order, on a component that may have invocations of
    [togglePlayback] suspended. *)
Definition cycleWrites (ws : list CycleWrite) (s : Sched) : Sched :=
  with_app (λ a, foldl cycleWrite a ws) s.

(** An event other than the failure of a tone. *)
Definition no_failure (e : Event) : Prop := ∀ pid, e ≠ NoteFailed pid.

(** What lines 182-198 render for one placed note: the React key, the
    position in pixels, whether the orb carries the classes of the current
    note ([currentNoteIndex === idx]), and the label. *)
Record Orb := mkOrb {
  key : string;
  left : nat;
  top : nat;
  lit : bool;
  label : string
}.

Definition orbs (a : State) : list Orb :=
  imap (λ idx n,
          mkOrb (id n) (x n) (y n)
                (bool_decide (currentNoteIndex a = Some idx))
                (value (note n)))
       (placedNotes a).

End Ui.

(** ** Concrete inputs *)

Module Examples.
Import Sampler Placer App Scheduler.

(** A random source that always returns 0, which a template literal prints
    as ["0"]. *)
Definition always_zero : nat → Rand := λ _, mkRand 0%Z 1%Z.
Definition show_zero : Rand → string := λ _, "0"%string.

Definition c4 : NoteData := mkNote "C4" (Qmake 26163 100) (Qmake 1 2).
Definition three_notes : list NoteData := [c4; c4; c4].
Definition five_notes : list NoteData := [c4; c4; c4; c4; c4].

Definition three_spots : list Spot :=
  [mkSpot 15 15; mkSpot 30 15; mkSpot 15 30].
Definition five_spots : list Spot :=
  three_spots ++ [mkSpot 30 30; mkSpot 45 15].

(** Two placed notes, the scheduler of a component that holds them, and
    that scheduler after a first press of the button: invocation 0 waits on
    note 0. *)
Definition two_placed : list PlacedNote :=
  [mkPlaced c4 "note-0-0" 15 15; mkPlaced c4 "note-1-0" 30 15].
Definition ready : Sched := loaded two_placed.
Definition playing : Sched := dispatch ready Toggle.
Definition first_pass : Pass := mkPass 0 two_placed 0.

(** The pixel buffer of an all-white 500 x 500 canvas. *)
Definition white_data : list nat := replicate (500 * 500 * 4) 255.

End Examples.

(** ** More concrete inputs *)

Module MoreExamples.
Import Sampler Placer App Scheduler Ui.

(** A buffer that ends with the pixel [(15, 15)], which is black; nothing
    else of the grid is in it. *)
Definition one_dark_pixel : list nat :=
  replicate (15 * 2004) 255 ++ [0; 0; 0].

(** The buffer that [getImageData(0, 0, 500, 500)] returns for a canvas
    whose pixel [(px, py)] has the byte [rgba px py c] in channel [c]: rows
    from the top, four bytes a pixel. *)
Definition canvas (rgba : nat → nat → nat → nat) : list nat :=
  (λ i, rgba ((i / 4) mod 500) (i / 4 / 500) (i mod 4))
    <$> seq 0 (500 * 500 * 4).

(** A white canvas with black pixels at [spots], every pixel with the alpha
    byte [alpha]. *)
Definition dark_at (spots : list Spot) (alpha : nat) : list nat :=
  canvas (λ px py c,
            if bool_decide (c = 3) then alpha
            else if bool_decide (mkSpot px py ∈ spots) then 0 else 255).

(** One black pixel on the grid, opaque and fully transparent. *)
Definition one_opaque : list nat := dark_at [mkSpot 15 15] 255.
Definition one_transparent : list nat := dark_at [mkSpot 15 15] 0.

(** Five black pixels on the grid. *)
Definition five_dark : list nat := dark_at Examples.five_spots 255.

(** Two spaces and a tab. *)
Definition blank_prompt : list N := [32; 32; 9]%N.

(** The doubles that JavaScript writes [0.6] and [0.3]:
    [5404319552844595 / 2^53] and [5404319552844595 / 2^54]. *)
Definition six_tenths : Rand :=
  mkRand 5404319552844595 9007199254740992.
Definition three_tenths : Rand :=
  mkRand 5404319552844595 18014398509481984.

(** A random source that gives [0.6] for every spot index (the first call
    of each run of the callback) and [0.3] for every identifier. *)
Definition tenths : nat → Rand :=
  λ k, if Nat.even k then six_tenths else three_tenths.
Definition show_tenths : Rand → string :=
  λ r, if (den r =? den six_tenths)%Z then "0.6"%string else "0.3"%string.

(** The first ten spots of the first row of the grid. *)
Definition ten_spots : list Spot := (λ i, mkSpot (15 * S i) 15) <$> seq 0 10.

End MoreExamples.

(** * Properties *)

(** ** The pixel scan *)

Module SamplerFacts.
Import Sampler.

Lemma lt_num_true (v : option nat) (t : nat) :
  lt_num v t = true ↔ ∃ n, v = Some n ∧ n < t.
Proof.
  destruct v as [n|]; simpl.
  - rewrite bool_decide_eq_true. split; [eauto|].
    by intros (m & [= ->] & ?).
  - split; [done|]. by intros (m & ? & _).
Qed.

(** The test of line 45 holds exactly when one of the three colour channels
    of the pixel is below 248. *)
Lemma is_dark_spec (data : list nat) (px py : nat) :
  is_dark data px py = true ↔
    ∃ c v, c < 3 ∧ data !! ((py * 500 + px) * 4 + c) = Some v ∧ v < 248.
Proof.
  unfold is_dark. rewrite !orb_true_iff, !lt_num_true. split.
  - intros [[[v [Hv ?]]|[v [Hv ?]]]|[v [Hv ?]]].
    + exists 0, v. rewrite Nat.add_0_r. auto with lia.
    + exists 1, v. auto with lia.
    + exists 2, v. auto with lia.
  - intros (c & v & Hc & Hv & ?).
    destruct c as [|[|[|c]]]; [| | |lia].
    + rewrite Nat.add_0_r in Hv. eauto.
    + eauto.
    + eauto.
Qed.

(** A loop whose body only pushes: with enough fuel it ends, and it has
    pushed [f i] for every value [i] of the counter, in order. *)
Lemma for_loop_push {A : Type} (body : nat → list A → option (list A))
    (f : nat → list A) (bound stp : nat) :
  (∀ i s, body i s = Some (s ++ f i)) →
  ∀ n fuel i s,
    n ≤ fuel →
    (∀ k, k < n → i + k * stp < bound) →
    ¬ (i + n * stp < bound) →
    for_loop fuel i bound stp body s
    = Some (s ++ (counter_values n i stp ≫= f)).
Proof.
  intros Hbody. induction n as [|n IH]; intros fuel i s Hfuel Hin Hout.
  - simpl in Hout. rewrite Nat.add_0_r in Hout.
    destruct fuel; simpl; rewrite bool_decide_eq_false_2 by done;
      by rewrite app_nil_r.
  - destruct fuel as [|fuel]; [lia|].
    assert (i < bound) as Hi by (specialize (Hin 0); lia).
    simpl. rewrite bool_decide_eq_true_2 by done.
    rewrite Hbody, (IH fuel (i + stp) (s ++ f i)).
    + by rewrite <- app_assoc.
    + lia.
    + intros k Hk. specialize (Hin (S k)). lia.
    + lia.
Qed.

Lemma elem_of_counter_values (n i stp v : nat) :
  v ∈ counter_values n i stp ↔ ∃ k, k < n ∧ v = i + k * stp.
Proof.
  revert i. induction n as [|n IH]; intros i; simpl.
  - rewrite elem_of_nil. split; [done|]. intros (k & ? & _). lia.
  - rewrite elem_of_cons, IH. split.
    + intros [->|(k & ? & ->)].
      * exists 0. lia.
      * exists (S k). lia.
    + intros ([|k] & ? & ->).
      * left. lia.
      * right. exists k. lia.
Qed.

Lemma counter_values_sorted (n i stp : nat) :
  0 < stp → StronglySorted lt (counter_values n i stp).
Proof.
  intros Hstp. revert i. induction n as [|n IH]; intros i; simpl.
  - constructor.
  - constructor; [apply IH|].
    apply Forall_forall. intros v [k [? ->]]%elem_of_counter_values. lia.
Qed.

(** Concatenating sorted blocks taken in a sorted order gives a sorted
    list. *)
Lemma bind_sorted {A B : Type} (RA : relation A) (RB : relation B)
    (F : A → list B) (l : list A) :
  StronglySorted RA l →
  (∀ a, a ∈ l → StronglySorted RB (F a)) →
  (∀ a1 a2 b1 b2, RA a1 a2 → a1 ∈ l → a2 ∈ l → b1 ∈ F a1 → b2 ∈ F a2 →
     RB b1 b2) →
  StronglySorted RB (l ≫= F).
Proof.
  induction 1 as [|a l Hl IH Ha]; intros Hblock Hacross.
  - constructor.
  - change ((a :: l) ≫= F) with (F a ++ (l ≫= F)).
    apply StronglySorted_app. split_and!.
    + intros b1 b2 Hb1 [a2 [Hb2 Ha2]]%list_elem_of_bind.
      rewrite Forall_forall in Ha.
      apply (Hacross a a2); [auto|left|by right|done|done].
    + apply Hblock. left.
    + apply IH.
      * intros ? ?. apply Hblock. by right.
      * intros a1 a2 b1 b2 ? ? ?. apply Hacross; [done|by right|by right].
Qed.

Lemma scan_pixel_push (data : list nat) (py px : nat) (s : list Spot) :
  scan_pixel data py px s = Some (s ++ pushed data py px).
Proof.
  unfold scan_pixel, pushed. destruct (is_dark data px py); [done|].
  by rewrite app_nil_r.
Qed.

Lemma scan_row_push (data : list nat) (py : nat) (s : list Spot) :
  scan_row data py s
  = Some (s ++ (counter_values 32 step step ≫= pushed data py)).
Proof.
  unfold scan_row.
  apply (for_loop_push _ _ _ _ (scan_pixel_push data py)); unfold step; lia.
Qed.

Lemma sampleSpots_closed (data : list nat) :
  sampleSpots data
  = Some (counter_values 32 step step ≫= λ py,
            counter_values 32 step step ≫= pushed data py).
Proof.
  unfold sampleSpots.
  rewrite (for_loop_push _ _ _ _ (scan_row_push data) 32); unfold step;
    [done|lia..].
Qed.

Lemma elem_of_grid (v : nat) :
  v ∈ counter_values 32 step step ↔
    step ≤ v < 500 - step ∧ v mod step = 0.
Proof.
  rewrite elem_of_counter_values. unfold step. split.
  - intros (k & ? & ->). split; [lia|].
    replace (15 + k * 15) with ((S k) * 15) by lia.
    apply Nat.Div0.mod_mul.
  - intros [? Hmod]. exists (v / 15 - 1).
    pose proof (Nat.div_mod_eq v 15). lia.
Qed.

Lemma elem_of_pushed (data : list nat) (py px : nat) (p : Spot) :
  p ∈ pushed data py px ↔ p = mkSpot px py ∧ is_dark data px py = true.
Proof.
  unfold pushed. destruct (is_dark data px py).
  - rewrite list_elem_of_singleton. by split; [|intros [? _]].
  - rewrite elem_of_nil. by split; [|intros [_ ?]].
Qed.

Lemma elem_of_row (data : list nat) (py : nat) (p : Spot) :
  p ∈ counter_values 32 step step ≫= pushed data py ↔
    y p = py ∧ x p ∈ counter_values 32 step step
    ∧ is_dark data (x p) py = true.
Proof.
  rewrite list_elem_of_bind. split.
  - intros (px & [-> ?]%elem_of_pushed & ?). done.
  - intros (<- & ? & ?). exists (x p). split; [|done].
    apply elem_of_pushed. by destruct p.
Qed.

Lemma row_sorted (data : list nat) (py : nat) :
  StronglySorted row_major (counter_values 32 step step ≫= pushed data py).
Proof.
  apply (bind_sorted lt).
  - apply counter_values_sorted. unfold step. lia.
  - intros px _. unfold pushed. destruct (is_dark data px py).
    + repeat constructor.
    + constructor.
  - intros x1 x2 b1 b2 ? _ _ [-> _]%elem_of_pushed [-> _]%elem_of_pushed.
    right. simpl. done.
Qed.

(** C4. For every pixel buffer, the scan ends and [validSpots] holds exactly
    the spots [(x, y)] with [step <= x < 500 - step], [step <= y < 500 - step],
    both multiples of [step], whose pixel has a colour channel below 248;
    they are listed in row-major order ([y] outer, [x] inner), so each
    once. *)
Theorem sampleSpots_exact (data : list nat) :
  ∃ spots,
    sampleSpots data = Some spots
    ∧ (∀ px py,
         mkSpot px py ∈ spots ↔
           (step ≤ px < 500 - step ∧ px mod step = 0)
           ∧ (step ≤ py < 500 - step ∧ py mod step = 0)
           ∧ ∃ c v, c < 3 ∧ data !! ((py * 500 + px) * 4 + c) = Some v
                    ∧ v < 248)
    ∧ StronglySorted row_major spots.
Proof.
  eexists. split; [apply sampleSpots_closed|]. split.
  - intros px py. rewrite list_elem_of_bind.
    setoid_rewrite elem_of_row. simpl.
    rewrite <- !elem_of_grid, <- is_dark_spec. split.
    + by intros (? & (-> & ? & ?) & ?).
    + intros (? & ? & ?). by exists py.
  - apply (bind_sorted lt).
    + apply counter_values_sorted. unfold step. lia.
    + intros py _. apply row_sorted.
    + intros y1 y2 b1 b2 ? _ _ (E1 & _)%elem_of_row (E2 & _)%elem_of_row.
      left. lia.
Qed.

End SamplerFacts.

(** ** Note placement *)

Module PlacerFacts.
Import Sampler Placer.

(** Rounding to nearest overshoots by at most one half. *)
Lemma round_half_even_upper (a b : Z) :
  (0 < b → 2 * (b * round_half_even a b) ≤ 2 * a + b)%Z.
Proof.
  intros Hb. unfold round_half_even.
  pose proof (Z.div_mod a b ltac:(lia)) as Hdiv.
  pose proof (Z.mod_pos_bound a b Hb) as Hmod.
  set (q := (a / b)%Z) in *. set (r := (a mod b)%Z) in *.
  destruct (Z.ltb_spec (2 * r) b); [lia|].
  destruct (Z.ltb_spec b (2 * r)); [lia|].
  destruct (Z.even q); lia.
Qed.

(** The double nearest to a fraction that is at most [n * (1 - 2^-53)] is
    below [n]: rounding moves a number by at most [2^-53] of itself (by at
    most [2^-1075] among the subnormal ones), which does not reach [n]. *)
Lemma nearest_double_below (a b n : Z) :
  (0 ≤ a → 0 < b → 1 ≤ n →
   a * 2 ^ 53 ≤ n * b * (2 ^ 53 - 1) →
   nearest_double a b < n * 2 ^ 1074)%Z.
Proof.
  intros Ha Hb Hn Hbelow. unfold nearest_double.
  assert (2 ^ 53 ≤ 2 ^ 1074)%Z as Hbig by (apply Z.pow_le_mono_r; lia).
  set (P := (2 ^ 1074)%Z) in *.
  change (2 ^ 53)%Z with 9007199254740992%Z in *.
  set (y := (a * P)%Z).
  set (L := Z.log2 (y / b)).
  assert (0 < n * b * P)%Z as Hpos by nia.
  assert (y * 9007199254740992 ≤ n * b * P * (9007199254740992 - 1))%Z
    as Hy by (unfold y; nia).
  destruct (Z.max_spec L 52) as [[Hsmall ->]|[Hlarge ->]].
  - rewrite Z.sub_diag, Z.pow_0_r, !Z.mul_1_r.
    pose proof (round_half_even_upper y b Hb) as Hup.
    assert (b * 9007199254740992 ≤ n * b * P)%Z as Hone by nia.
    apply (Z.mul_lt_mono_pos_l b); [done|].
    replace (b * (n * P))%Z with (n * b * P)%Z by lia. lia.
  - set (Q := (2 ^ (L - 52))%Z).
    assert (0 < Q)%Z as HQ by (apply Z.pow_pos_nonneg; lia).
    assert (0 < y / b)%Z as Hquot.
    { destruct (Z.lt_ge_cases 0 (y / b)) as [|Hle]; [done|].
      apply Z.log2_nonpos in Hle. fold L in Hle. lia. }
    pose proof (Z.log2_spec _ Hquot) as [Hlog _]. fold L in Hlog.
    pose proof (Z.mul_div_le y b Hb) as Hfloor.
    assert (2 ^ L = Q * 2 ^ 52)%Z as HL.
    { unfold Q. rewrite <- Z.pow_add_r by lia. f_equal. lia. }
    change (2 ^ 52)%Z with 4503599627370496%Z in HL.
    assert (b * Q * 4503599627370496 ≤ y)%Z as Hnormal by nia.
    assert (0 < b * Q)%Z as HbQ by nia.
    pose proof (round_half_even_upper y (b * Q) HbQ) as Hup.
    set (k := round_half_even y (b * Q)) in *.
    apply (Z.mul_lt_mono_pos_l b); [done|].
    replace (b * (k * Q))%Z with (b * Q * k)%Z by lia.
    replace (b * (n * P))%Z with (n * b * P)%Z by lia. lia.
Qed.

(** The index drawn from a non-empty array is an index of the array, IEEE
    rounding of the product included. *)
Lemma floor_mul_lt (u : Rand) (n : nat) :
  in_unit u → 0 < n → floor_mul u n < n.
Proof.
  intros (Hnum & Hden & Hu) Hn. unfold floor_mul.
  assert (nearest_double (num u * Z.of_nat n) (den u)
          < Z.of_nat n * 2 ^ 1074)%Z as Hbelow.
  { apply nearest_double_below; [lia|done|lia|]. nia. }
  assert (nearest_double (num u * Z.of_nat n) (den u) / 2 ^ 1074
          < Z.of_nat n)%Z as Hfloor.
  { apply Z.div_lt_upper_bound; [by apply Z.pow_pos_nonneg|]. lia. }
  lia.
Qed.

Lemma map_from_cons (cb : NoteData → nat → Eff PlacedNote) (idx : nat)
    (n : NoteData) (rest : list NoteData) (s : PState) :
  map_from cb idx (n :: rest) s
  = match cb n idx s with
    | Some (p, s1) =>
        match map_from cb (S idx) rest s1 with
        | Some (ps, s2) => Some (p :: ps, s2)
        | None => None
        end
    | None => None
    end.
Proof.
  simpl. unfold mbind, Eff_bind. destruct (cb n idx s) as [[p s1]|]; [|done].
  by destruct (map_from cb (S idx) rest s1) as [[ps s2]|].
Qed.

Lemma spots_trace_head (rng : nat → Rand) (nts : Rand → string)
    (N idx : nat) (melody : list NoteData) (s : PState) :
  spots_trace rng nts N idx melody s !! 0 = Some (validSpots s).
Proof. by destruct melody. Qed.

Lemma not_elem_of_delete {A : Type} (l : list A) (i : nat) (a : A) :
  NoDup l → l !! i = Some a → a ∉ delete i l.
Proof.
  intros Hl Hi. apply delete_Permutation in Hi.
  rewrite Hi in Hl. by apply NoDup_cons in Hl as [? _].
Qed.

Lemma NoDup_delete {A : Type} (l : list A) (i : nat) :
  NoDup l → NoDup (delete i l).
Proof. intros Hl. eapply sublist_NoDup; [done|apply sublist_delete]. Qed.

Section WithRandom.
Variable rng : nat → Rand.
Variable number_to_string : Rand → string.
Hypothesis rng_unit : ∀ k, in_unit (rng k).

#[local] Abbreviation place_note := (place_note rng number_to_string).
#[local] Abbreviation placeNotes := (placeNotes rng number_to_string).
#[local] Abbreviation spots_trace := (spots_trace rng number_to_string).
#[local] Abbreviation note_id := (note_id number_to_string).

(** The index drawn by a call of the callback that starts in state [s]. *)
#[local] Abbreviation drawn s :=
  (floor_mul (rng (calls s)) (length (validSpots s))).

(** [validSpots] after a call that starts in state [s]. *)
#[local] Abbreviation spots_after N s :=
  (if bool_decide (N < length (validSpots s))
   then delete (drawn s) (validSpots s) else validSpots s).

(** One call of the callback on a non-empty candidate set: the draw is in
    range, the note gets the spot at the drawn index, the spot is spliced
    out exactly when the set is larger than [melody.length]. *)
Lemma place_note_ok (N : nat) (n : NoteData) (idx : nat) (s : PState) :
  0 < length (validSpots s) →
  ∃ p,
    validSpots s !! drawn s = Some p
    ∧ place_note N n idx s
      = Some (mkPlaced n (note_id idx (rng (S (calls s))))
                (Sampler.x p) (Sampler.y p),
              mkPState (spots_after N s) (S (S (calls s)))).
Proof.
  intros Hlen.
  destruct (lookup_lt_is_Some_2 (validSpots s) (drawn s)) as [p Hp].
  { by apply floor_mul_lt. }
  exists p. split; [done|].
  unfold place_note, mbind, Eff_bind, math_random, spots_length, spot_at.
  simpl. rewrite Hp. by case_bool_decide.
Qed.

Lemma spots_after_length (N : nat) (s : PState) :
  0 < length (validSpots s) →
  length (spots_after N s)
  = if bool_decide (N < length (validSpots s))
    then length (validSpots s) - 1 else length (validSpots s).
Proof.
  intros Hlen. case_bool_decide; [|done].
  rewrite length_delete; [done|].
  apply lookup_lt_is_Some_2. by apply floor_mul_lt.
Qed.

(** The whole [map] from any state with a non-empty candidate set, as long
    as no more notes are left than [melody.length]. *)
Lemma map_from_ok (N : nat) (melody : list NoteData) :
  ∀ idx s,
    length melody ≤ N →
    0 < length (validSpots s) →
    ∃ out s',
      map_from (place_note N) idx melody s = Some (out, s')
      ∧ note <$> out = melody
      ∧ (∀ i p, out !! i = Some p →
           id p = note_id (idx + i) (rng (S (calls s + 2 * i)))
           ∧ coordinate p ∈ validSpots s).
Proof.
  induction melody as [|n rest IH]; intros idx s HN Hlen.
  - exists [], s. split_and!; [done..|]. intros i p. by rewrite lookup_nil.
  - simpl in HN.
    destruct (place_note_ok N n idx s Hlen) as (q & Hq & Hcall).
    pose proof (spots_after_length N s Hlen) as Hafter.
    destruct (IH (S idx) (mkPState (spots_after N s) (S (S (calls s)))))
      as (out & s' & Hrest & Hnotes & Hout).
    { lia. }
    { simpl. rewrite Hafter. case_bool_decide; lia. }
    eexists _, s'. rewrite map_from_cons, Hcall, Hrest.
    split_and!; [done|by rewrite fmap_cons, Hnotes|].
    intros [|i] p Hp; simpl in Hp.
    + injection Hp as <-. rewrite !Nat.add_0_r. split; [done|].
      unfold coordinate. simpl. apply list_elem_of_lookup.
      exists (drawn s). by destruct q.
    + destruct (Hout i p Hp) as [Hid Hin]. simpl in Hid, Hin. split.
      * rewrite Hid. do 2 f_equal; lia.
      * case_bool_decide; [|done].
        by eapply list_elem_of_delete_inv.
Qed.

(** The candidate sets seen by the successive calls: none is empty, none is
    smaller than both the first one and [melody.length], every draw is in
    range, and each set is the previous one, without the drawn spot when
    the previous one was larger than [melody.length]. *)
Lemma spots_trace_ok (N : nat) (melody : list NoteData) :
  ∀ idx s,
    length melody ≤ N →
    0 < length (validSpots s) →
    length (spots_trace N idx melody s) = S (length melody)
    ∧ (∀ L, L ∈ spots_trace N idx melody s →
         0 < length L ∧ length (validSpots s) `min` N ≤ length L)
    ∧ (∀ k L, k < length melody →
         spots_trace N idx melody s !! k = Some L →
         let i := floor_mul (rng (calls s + 2 * k)) (length L) in
         is_Some (L !! i)
         ∧ spots_trace N idx melody s !! S k
           = Some (if bool_decide (N < length L) then delete i L else L)).
Proof.
  induction melody as [|n rest IH]; intros idx s HN Hlen.
  - simpl. split_and!; [done| |intros; lia].
    intros L ->%list_elem_of_singleton. lia.
  - simpl in HN.
    destruct (place_note_ok N n idx s Hlen) as (q & Hq & Hcall).
    pose proof (spots_after_length N s Hlen) as Hafter.
    simpl. rewrite Hcall.
    set (s1 := mkPState (spots_after N s) (S (S (calls s)))).
    destruct (IH (S idx) s1) as (Hl & Hall & Hsteps).
    { lia. }
    { simpl. rewrite Hafter. case_bool_decide; lia. }
    split_and!.
    + by rewrite Hl.
    + intros L [->|HL]%elem_of_cons; [lia|].
      destruct (Hall L HL) as [? Hmin]. split; [done|].
      simpl in Hmin. rewrite Hafter in Hmin.
      case_bool_decide; lia.
    + intros [|k] L Hk HL; simpl in HL.
      * injection HL as <-. rewrite Nat.add_0_r. split.
        { by eexists. }
        simpl. by rewrite spots_trace_head.
      * replace (calls s + (S k + (S k + 0))) with (calls s1 + 2 * k)
          by (simpl; lia).
        apply Hsteps; [lia|done].
Qed.

(** When the candidates are distinct and at least [melody.length + k - 1]
    of them are left for the [k] notes still to place, every call but
    possibly the last removes the spot it draws, so no spot is handed out
    twice. *)
Lemma map_from_distinct (N : nat) (melody : list NoteData) :
  ∀ idx s out s',
    NoDup (validSpots s) →
    length melody ≤ N →
    N + length melody ≤ S (length (validSpots s)) →
    map_from (place_note N) idx melody s = Some (out, s') →
    NoDup (coordinate <$> out).
Proof.
  induction melody as [|n rest IH]; intros idx s out s' Hnd HN HM Hrun.
  - injection Hrun as <- <-. constructor.
  - simpl in HN, HM.
    assert (0 < length (validSpots s)) as Hlen by lia.
    destruct (place_note_ok N n idx s Hlen) as (q & Hq & Hcall).
    pose proof (spots_after_length N s Hlen) as Hafter.
    rewrite map_from_cons, Hcall in Hrun.
    set (s1 := mkPState (spots_after N s) (S (S (calls s)))) in *.
    destruct rest as [|n' rest].
    { simpl in Hrun. injection Hrun as <- <-. repeat constructor.
      by intros ?%elem_of_nil. }
    simpl in HN, HM.
    assert (N < length (validSpots s)) as Hbig by lia.
    destruct (map_from_ok N (n' :: rest) (S idx) s1)
      as (ps & s2 & Hrest & _ & Hps).
    { simpl. lia. }
    { simpl. rewrite Hafter. case_bool_decide; lia. }
    rewrite Hrest in Hrun. injection Hrun as <- <-.
    rewrite fmap_cons. apply NoDup_cons. split.
    + intros (p & Hp & Hin)%list_elem_of_fmap.
      apply list_elem_of_lookup in Hin as [i Hi].
      destruct (Hps i p Hi) as [_ Hmem]. simpl in Hmem.
      rewrite bool_decide_eq_true_2 in Hmem by done.
      rewrite <- Hp in Hmem. unfold coordinate in Hmem. simpl in Hmem.
      apply (not_elem_of_delete _ _ _ Hnd Hq). by destruct q.
    + apply (IH (S idx) s1 ps s2); [| simpl; lia | | done].
      * simpl. rewrite bool_decide_eq_true_2 by done. by apply NoDup_delete.
      * simpl. rewrite Hafter. rewrite bool_decide_eq_true_2 by done.
        simpl. lia.
Qed.
(** Every call reads the spot at the index it draws from the candidate set
    it finds. *)
Lemma map_from_draws (N : nat) (melody : list NoteData) :
  ∀ idx s out s',
    length melody ≤ N →
    0 < length (validSpots s) →
    map_from (place_note N) idx melody s = Some (out, s') →
    ∀ k L,
      k < length melody →
      spots_trace N idx melody s !! k = Some L →
      ∃ p, out !! k = Some p
           ∧ L !! floor_mul (rng (calls s + 2 * k)) (length L)
             = Some (coordinate p).
Proof.
  induction melody as [|n rest IH]; intros idx s out s' HN Hlen Hrun k L Hk HL.
  - simpl in Hk. lia.
  - simpl in HN.
    destruct (place_note_ok N n idx s Hlen) as (q & Hq & Hcall).
    pose proof (spots_after_length N s Hlen) as Hafter.
    rewrite map_from_cons, Hcall in Hrun.
    cbn [Placer.spots_trace] in HL. rewrite Hcall in HL.
    set (s1 := mkPState (spots_after N s) (S (S (calls s)))) in *.
    destruct (map_from (place_note N) (S idx) rest s1)
      as [[ps s2]|] eqn:Hrest; [|done].
    injection Hrun as <- <-.
    destruct k as [|k]; simpl in HL.
    + injection HL as <-. rewrite Nat.add_0_r. eexists. split; [done|].
      unfold coordinate. simpl. by destruct q.
    + destruct (IH (S idx) s1 ps s2) with (k := k) (L := L)
        as (p & Hp & Hspot); [lia| |done|simpl in Hk; lia|done|].
      { simpl. rewrite Hafter. case_bool_decide; lia. }
      exists p. split; [done|].
      replace (calls s + 2 * S k) with (calls s1 + 2 * k) by (simpl; lia).
      done.
Qed.

(** A candidate set that is not larger than [melody.length] is never
    spliced: every note is drawn from the whole of it. *)
Lemma map_from_no_splice (N : nat) (melody : list NoteData) :
  ∀ idx s out s',
    length (validSpots s) ≤ N →
    0 < length (validSpots s) →
    map_from (place_note N) idx melody s = Some (out, s') →
    validSpots s' = validSpots s
    ∧ ∀ k p, out !! k = Some p →
        validSpots s
          !! floor_mul (rng (calls s + 2 * k)) (length (validSpots s))
        = Some (coordinate p).
Proof.
  induction melody as [|n rest IH]; intros idx s out s' HM Hlen Hrun.
  - injection Hrun as <- <-. split; [done|]. intros k p.
    by rewrite lookup_nil.
  - destruct (place_note_ok N n idx s Hlen) as (q & Hq & Hcall).
    rewrite bool_decide_eq_false_2 in Hcall by lia.
    rewrite map_from_cons, Hcall in Hrun.
    set (s1 := mkPState (validSpots s) (S (S (calls s)))) in *.
    destruct (map_from (place_note N) (S idx) rest s1)
      as [[ps s2]|] eqn:Hrest; [|done].
    injection Hrun as <- <-.
    destruct (IH (S idx) s1 ps s2) as [Hsame Hps]; [done..|].
    split; [done|]. intros [|k] p Hp; simpl in Hp.
    + injection Hp as <-. rewrite Nat.add_0_r.
      unfold coordinate. simpl. by destruct q.
    + specialize (Hps k p Hp). simpl in Hps.
      replace (calls s + 2 * S k) with (S (S (calls s)) + 2 * k) by lia.
      done.
Qed.
End WithRandom.

(** *** Identifiers *)

Lemma string_of_uint_no_dash (d : Decimal.uint) :
  Forall (λ c, c ≠ "-"%char)
    (list_ascii_of_string (NilEmpty.string_of_uint d)).
Proof. induction d; simpl; constructor; done. Qed.

(** Two strings without a dash that are each followed by a dash and then
    anything: if the wholes agree, the parts before the dash agree. *)
Lemma append_dash_inj (a b s t : string) :
  Forall (λ c, c ≠ "-"%char) (list_ascii_of_string a) →
  Forall (λ c, c ≠ "-"%char) (list_ascii_of_string b) →
  (a ++ String "-" s)%string = (b ++ String "-" t)%string →
  a = b.
Proof.
  revert b. induction a as [|c a IH]; intros [|c' b] Ha Hb E; simpl in *.
  - done.
  - injection E as E _. apply Forall_cons in Hb as [Hc _]. congruence.
  - injection E as E _. apply Forall_cons in Ha as [Hc _]. congruence.
  - injection E as -> E.
    apply Forall_cons in Ha as [_ Ha]. apply Forall_cons in Hb as [_ Hb].
    f_equal. by apply IH.
Qed.

Lemma index_to_string_inj (i j : nat) :
  index_to_string i = index_to_string j → i = j.
Proof.
  unfold index_to_string. intros E.
  apply Unsigned.to_uint_inj.
  apply (f_equal NilEmpty.uint_of_string) in E.
  rewrite !NilEmpty.usu in E. congruence.
Qed.

(** Identifiers built for different indices differ, whatever their random
    parts. *)
Lemma note_id_inj (nts : Rand → string) (i j : nat) (r r' : Rand) :
  note_id nts i r = note_id nts j r' → i = j.
Proof.
  unfold note_id. intros E. simpl in E. injection E as E.
  apply index_to_string_inj.
  apply (append_dash_inj _ _ _ _
           (string_of_uint_no_dash _) (string_of_uint_no_dash _) E).
Qed.

(** *** The claims on placement *)

(** C5. For a melody of [N] notes and [M >= 1] candidates (and a random
    source that stays in [0, 1)), the [map] returns: it yields [N] placed
    notes, the [i]-th one carrying the [i]-th note of the melody; when
    [M < N] some coordinate is used twice. *)
Theorem placeNotes_keeps_every_note (rng : nat → Rand) (nts : Rand → string)
    (melody : list NoteData) (spots : list Spot) (calls0 : nat) :
  (∀ k, in_unit (rng k)) →
  1 ≤ length spots →
  ∃ out s',
    placeNotes rng nts melody (mkPState spots calls0) = Some (out, s')
    ∧ length out = length melody
    ∧ (∀ i, note <$> out !! i = melody !! i)
    ∧ (length spots < length melody → ¬ NoDup (coordinate <$> out)).
Proof.
  intros Hrng Hlen.
  destruct (map_from_ok rng nts Hrng (length melody) melody 0
              (mkPState spots calls0))
    as (out & s' & Hrun & Hnotes & Hout); [done..|].
  exists out, s'. split_and!.
  - done.
  - by rewrite <- Hnotes, length_fmap.
  - intros i. by rewrite <- Hnotes, list_lookup_fmap.
  - intros Hfew Hnd.
    assert (coordinate <$> out ⊆+ spots) as Hsub.
    { apply NoDup_submseteq; [done|].
      intros c (p & -> & Hp)%list_elem_of_fmap.
      apply list_elem_of_lookup in Hp as [i Hi].
      by destruct (Hout i p Hi). }
    apply submseteq_length in Hsub. rewrite length_fmap in Hsub.
    apply (f_equal length) in Hnotes. rewrite length_fmap in Hnotes. lia.
Qed.

(** C10. Whenever the [map] runs on a non-empty candidate set, every draw
    [Math.floor(Math.random() * validSpots.length)] is an index of the
    current set, the splice leaves the set non-empty and never smaller than
    both its first size and [melody.length] (it only splices a set larger
    than [melody.length]), and every placed note gets the coordinates of one
    of the candidates. *)
Theorem placement_stays_in_bounds (rng : nat → Rand) (nts : Rand → string)
    (melody : list NoteData) (spots : list Spot) (calls0 : nat) :
  (∀ k, in_unit (rng k)) →
  spots ≠ [] →
  let N := length melody in
  let sets := spots_trace rng nts N 0 melody (mkPState spots calls0) in
  length sets = S N
  ∧ (∀ k L, k < N → sets !! k = Some L →
       let i := floor_mul (rng (calls0 + 2 * k)) (length L) in
       i < length L
       ∧ is_Some (L !! i)
       ∧ sets !! S k
         = Some (if bool_decide (N < length L) then delete i L else L))
  ∧ (∀ L, L ∈ sets → 1 ≤ length L ∧ length spots `min` N ≤ length L)
  ∧ ∃ out s',
      placeNotes rng nts melody (mkPState spots calls0) = Some (out, s')
      ∧ length out = N
      ∧ Forall (λ p, coordinate p ∈ spots) out.
Proof.
  intros Hrng Hne N sets.
  assert (0 < length spots) as Hlen by (destruct spots; simpl; [done|lia]).
  destruct (spots_trace_ok rng nts Hrng N melody 0 (mkPState spots calls0))
    as (Hl & Hall & Hsteps); [done..|].
  destruct (map_from_ok rng nts Hrng N melody 0 (mkPState spots calls0))
    as (out & s' & Hrun & Hnotes & Hout); [done..|].
  split_and!.
  - done.
  - intros k L Hk HL i.
    destruct (Hsteps k L Hk HL) as [Hi Hnext].
    split_and!; [by apply lookup_lt_is_Some|done|done].
  - intros L HL. destruct (Hall L HL). simpl in *. lia.
  - exists out, s'.
    split_and!; [done|by unfold N; rewrite <- Hnotes, length_fmap|].
    apply Forall_lookup. intros i p Hi. by destruct (Hout i p Hi).
Qed.

(** C1, as the code has it. On [M >= 1] candidates and a melody of [N]
    notes the [map] returns [N] placed notes, and every call gives its note
    the candidate at the index it draws and removes that candidate exactly
    when the current candidate set is larger than [melody.length], the
    length of the whole melody. Hence: [M >= 2N - 1] pairwise distinct
    candidates give pairwise distinct coordinates; and with [M <= N], as in
    the scenario [M = N = 3], no candidate is ever removed and every note
    gets the candidate at its own draw from all [M], so that equal draws
    share a coordinate. *)
Theorem distinct_when_enough_spots (rng : nat → Rand) (nts : Rand → string)
    (melody : list NoteData) (spots : list Spot) (calls0 : nat) :
  (∀ k, in_unit (rng k)) →
  1 ≤ length spots →
  let N := length melody in
  let M := length spots in
  let sets := spots_trace rng nts N 0 melody (mkPState spots calls0) in
  ∃ out s',
    placeNotes rng nts melody (mkPState spots calls0) = Some (out, s')
    ∧ length out = N
    ∧ (∀ k L, k < N → sets !! k = Some L →
         let i := floor_mul (rng (calls0 + 2 * k)) (length L) in
         (∃ p, out !! k = Some p ∧ L !! i = Some (coordinate p))
         ∧ sets !! S k
           = Some (if bool_decide (N < length L) then delete i L else L))
    ∧ (NoDup spots → 2 * N ≤ S M → NoDup (coordinate <$> out))
    ∧ (M ≤ N →
         validSpots s' = spots
         ∧ ∀ k p, out !! k = Some p →
             spots !! floor_mul (rng (calls0 + 2 * k)) M
             = Some (coordinate p)).
Proof.
  intros Hrng Hlen N M sets.
  destruct (map_from_ok rng nts Hrng N melody 0 (mkPState spots calls0))
    as (out & s' & Hrun & Hnotes & Hout); [done..|].
  exists out, s'. split_and!.
  - done.
  - by unfold N; rewrite <- Hnotes, length_fmap.
  - intros k L Hk HL i. split.
    + by apply (map_from_draws rng nts Hrng N melody 0
                  (mkPState spots calls0) out s').
    + destruct (spots_trace_ok rng nts Hrng N melody 0
                  (mkPState spots calls0)) as (_ & _ & Hsteps); [done..|].
      by destruct (Hsteps k L Hk HL).
  - intros Hnd HM.
    apply (map_from_distinct rng nts Hrng N melody 0
             (mkPState spots calls0) out s'); [done|done| |done].
    unfold N, M in *. simpl. lia.
  - intros HM.
    by apply (map_from_no_splice rng nts Hrng N melody 0
                (mkPState spots calls0) out s').
Qed.

(** C9. The identifiers given in one [map] are pairwise distinct: the
    [i]-th is [note-i-r] for the index [i] and a result [r] of
    [Math.random()], also when two notes sit on the same coordinate. *)
Theorem ids_unique_within_cycle (rng : nat → Rand) (nts : Rand → string)
    (melody : list NoteData) (spots : list Spot) (calls0 : nat) :
  (∀ k, in_unit (rng k)) →
  1 ≤ length spots →
  ∃ out s',
    placeNotes rng nts melody (mkPState spots calls0) = Some (out, s')
    ∧ (∀ i p, out !! i = Some p →
         id p = note_id nts i (rng (S (calls0 + 2 * i))))
    ∧ NoDup (id <$> out)
    ∧ (∀ i j p q, out !! i = Some p → out !! j = Some q → i ≠ j →
         id p ≠ id q).
Proof.
  intros Hrng Hlen.
  destruct (map_from_ok rng nts Hrng (length melody) melody 0
              (mkPState spots calls0))
    as (out & s' & Hrun & Hnotes & Hout); [done..|].
  assert (∀ i j p q, out !! i = Some p → out !! j = Some q →
            id p = id q → i = j) as Hinj.
  { intros i j p q Hp Hq E.
    destruct (Hout i p Hp) as [Hi _]. destruct (Hout j q Hq) as [Hj _].
    simpl in Hi, Hj. rewrite Hi, Hj in E. by apply note_id_inj in E. }
  exists out, s'. split_and!.
  - done.
  - intros i p Hp. by destruct (Hout i p Hp).
  - apply NoDup_alt. intros i j s.
    rewrite !list_lookup_fmap.
    destruct (out !! i) as [p|] eqn:Hp; [|done].
    destruct (out !! j) as [q|] eqn:Hq; [|done].
    simpl. intros [= <-] [= E]. by apply (Hinj i j p q).
  - intros i j p q Hp Hq Hij E. apply Hij. by apply (Hinj i j p q).
Qed.

(** *** The claims at concrete inputs *)

Lemma always_zero_unit : ∀ k, in_unit (Examples.always_zero k).
Proof. intros k. unfold in_unit. simpl. lia. Defined.

Lemma three_spots_NoDup : NoDup Examples.three_spots.
Proof. apply (bool_decide_unpack _). by vm_compute. Defined.

Lemma five_spots_NoDup : NoDup Examples.five_spots.
Proof. apply (bool_decide_unpack _). by vm_compute. Defined.

(** Five notes on three candidates: all five are placed, in order, and a
    coordinate repeats. *)
Lemma placeNotes_keeps_every_note_witness :
  ∃ out s',
    placeNotes Examples.always_zero Examples.show_zero Examples.five_notes
      (mkPState Examples.three_spots 0) = Some (out, s')
    ∧ length out = length Examples.five_notes
    ∧ (∀ i, note <$> out !! i = Examples.five_notes !! i)
    ∧ (length Examples.three_spots < length Examples.five_notes →
       ¬ NoDup (coordinate <$> out)).
Proof.
  apply (placeNotes_keeps_every_note Examples.always_zero Examples.show_zero
           Examples.five_notes Examples.three_spots 0).
  - apply always_zero_unit.
  - simpl. lia.
Defined.

Lemma tenths_unit : ∀ k, in_unit (MoreExamples.tenths k).
Proof.
  intros k. unfold MoreExamples.tenths, in_unit.
  destruct (Nat.even k); simpl; lia.
Defined.

Lemma ten_spots_NoDup : NoDup MoreExamples.ten_spots.
Proof. apply (bool_decide_unpack _). by vm_compute. Defined.

(** Line 57 on the doubles [0.6] and [0.3] and ten spots: the products
    round to 6 and 3, where the exact ones have the floors 5 and 2. *)
Lemma floor_mul_rounds :
  floor_mul MoreExamples.six_tenths 10 = 6
  ∧ floor_mul MoreExamples.three_tenths 10 = 3
  ∧ (num MoreExamples.six_tenths * 10 / den MoreExamples.six_tenths = 5)%Z
  ∧ (num MoreExamples.three_tenths * 10 / den MoreExamples.three_tenths
     = 2)%Z.
Proof. split_and!; vm_compute; reflexivity. Qed.

(** Three notes on ten spots with the draws [0.6]: the indices 6, 5 and 4
    are drawn from sets of 10, 9 and 8 spots, and each drawn spot is spliced
    out. *)
Lemma tenths_on_ten_spots :
  map length (spots_trace MoreExamples.tenths MoreExamples.show_tenths 3 0
                Examples.three_notes (mkPState MoreExamples.ten_spots 0))
  = [10; 9; 8; 7]
  ∧ (λ r : list PlacedNote * PState, map coordinate r.1)
      <$> placeNotes MoreExamples.tenths MoreExamples.show_tenths
            Examples.three_notes (mkPState MoreExamples.ten_spots 0)
    = Some [mkSpot 105 15; mkSpot 90 15; mkSpot 75 15].
Proof. split; vm_compute; reflexivity. Qed.

(** Three notes on ten spots: every call takes the splice branch. *)
Lemma placement_stays_in_bounds_witness :
  let N := length Examples.three_notes in
  let sets :=
    spots_trace MoreExamples.tenths MoreExamples.show_tenths N 0
      Examples.three_notes (mkPState MoreExamples.ten_spots 0) in
  length sets = S N
  ∧ (∀ k L, k < N → sets !! k = Some L →
       let i := floor_mul (MoreExamples.tenths (0 + 2 * k)) (length L) in
       i < length L
       ∧ is_Some (L !! i)
       ∧ sets !! S k
         = Some (if bool_decide (N < length L) then delete i L else L))
  ∧ (∀ L, L ∈ sets →
       1 ≤ length L ∧ length MoreExamples.ten_spots `min` N ≤ length L)
  ∧ ∃ out s',
      placeNotes MoreExamples.tenths MoreExamples.show_tenths
        Examples.three_notes (mkPState MoreExamples.ten_spots 0)
      = Some (out, s')
      ∧ length out = N
      ∧ Forall (λ p, coordinate p ∈ MoreExamples.ten_spots) out.
Proof.
  apply (placement_stays_in_bounds MoreExamples.tenths
           MoreExamples.show_tenths Examples.three_notes
           MoreExamples.ten_spots 0).
  - apply tenths_unit.
  - discriminate.
Defined.

(** Three notes on ten distinct candidates, with the draws [0.6]. *)
Lemma distinct_when_enough_spots_witness :
  let N := length Examples.three_notes in
  let M := length MoreExamples.ten_spots in
  let sets :=
    spots_trace MoreExamples.tenths MoreExamples.show_tenths N 0
      Examples.three_notes (mkPState MoreExamples.ten_spots 0) in
  ∃ out s',
    placeNotes MoreExamples.tenths MoreExamples.show_tenths
      Examples.three_notes (mkPState MoreExamples.ten_spots 0)
    = Some (out, s')
    ∧ length out = N
    ∧ (∀ k L, k < N → sets !! k = Some L →
         let i := floor_mul (MoreExamples.tenths (0 + 2 * k)) (length L) in
         (∃ p, out !! k = Some p ∧ L !! i = Some (coordinate p))
         ∧ sets !! S k
           = Some (if bool_decide (N < length L) then delete i L else L))
    ∧ (NoDup MoreExamples.ten_spots → 2 * N ≤ S M →
       NoDup (coordinate <$> out))
    ∧ (M ≤ N →
         validSpots s' = MoreExamples.ten_spots
         ∧ ∀ k p, out !! k = Some p →
             MoreExamples.ten_spots
               !! floor_mul (MoreExamples.tenths (0 + 2 * k)) M
             = Some (coordinate p)).
Proof.
  apply (distinct_when_enough_spots MoreExamples.tenths
           MoreExamples.show_tenths Examples.three_notes
           MoreExamples.ten_spots 0).
  - apply tenths_unit.
  - simpl. lia.
Defined.

Lemma ids_unique_within_cycle_witness :
  ∃ out s',
    placeNotes Examples.always_zero Examples.show_zero Examples.five_notes
      (mkPState Examples.three_spots 0) = Some (out, s')
    ∧ (∀ i p, out !! i = Some p →
         id p = note_id Examples.show_zero i
                  (Examples.always_zero (S (0 + 2 * i))))
    ∧ NoDup (id <$> out)
    ∧ (∀ i j p q, out !! i = Some p → out !! j = Some q → i ≠ j →
         id p ≠ id q).
Proof.
  apply (ids_unique_within_cycle Examples.always_zero Examples.show_zero
           Examples.five_notes Examples.three_spots 0).
  - apply always_zero_unit.
  - simpl. lia.
Defined.

(** C1 fails as stated. Three distinct candidates, three notes, a random
    source that returns 0 every time: [3 > 3] is false, nothing is ever
    spliced out, and all three notes land on [(15, 15)]. *)
Lemma equal_sizes_share_a_spot :
  (∀ k, in_unit (Examples.always_zero k))
  ∧ NoDup Examples.three_spots
  ∧ length Examples.three_notes ≤ length Examples.three_spots
  ∧ ∃ out s',
      placeNotes Examples.always_zero Examples.show_zero Examples.three_notes
        (mkPState Examples.three_spots 0) = Some (out, s')
      ∧ coordinate <$> out = [mkSpot 15 15; mkSpot 15 15; mkSpot 15 15]
      ∧ validSpots s' = Examples.three_spots
      ∧ ¬ NoDup (coordinate <$> out).
Proof.
  split_and!.
  - apply always_zero_unit.
  - apply three_spots_NoDup.
  - simpl. lia.
  - eexists _, _. split_and!.
    + vm_compute. reflexivity.
    + reflexivity.
    + reflexivity.
    + simpl. intros [Hin _]%NoDup_cons. apply Hin. left.
Qed.

End PlacerFacts.

(** ** One generation cycle *)

Module AppFacts.
Import Sampler Placer App.

Lemma bind_nil {A B : Type} (F : A → list B) (l : list A) :
  (∀ a, a ∈ l → F a = []) → l ≫= F = [].
Proof.
  induction l as [|a l IH]; intros HF; [done|].
  change ((a :: l) ≫= F) with (F a ++ (l ≫= F)).
  rewrite HF by left. rewrite IH; [done|].
  intros b Hb. apply HF. by right.
Qed.

(** A buffer whose bytes are all at least 248 has no dark pixel. *)
Lemma white_no_spots (data : list nat) :
  Forall (λ v, 248 ≤ v) data → sampleSpots data = Some [].
Proof.
  intros Hwhite. rewrite SamplerFacts.sampleSpots_closed. f_equal.
  apply bind_nil. intros py _. apply bind_nil. intros px _.
  unfold pushed. destruct (is_dark data px py) eqn:Hdark; [|done].
  apply SamplerFacts.is_dark_spec in Hdark as (c & v & _ & Hv & Hlt).
  rewrite Forall_lookup in Hwhite. specialize (Hwhite _ _ Hv).
  cbv beta in Hwhite. lia.
Qed.

(** C6. When the scan finds no spot, [onload] sets the error message and
    returns: it makes no call of [Math.random], so no note is placed, and it
    leaves [placedNotes] as it was. In a whole cycle [placedNotes] is then
    empty, the message is shown and the component is neither loading nor
    playing, ready for another prompt. *)
Theorem no_shape_stops_cycle (rng : nat → Rand) (nts : Rand → string)
    (data : list nat) (melody : list NoteData) (calls0 : nat) (a : State) :
  sampleSpots data = Some [] →
  onload rng nts data melody calls0 a
  = Done (setError (Some no_shape_message) a) calls0
  ∧ ∃ a',
      generationCycle rng nts (GenImage data melody) calls0 a = Done a' calls0
      ∧ placedNotes a' = []
      ∧ error a' = Some no_shape_message
      ∧ isLoading a' = false
      ∧ isPlaying a' = false
      ∧ currentNoteIndex a' = None.
Proof.
  intros Hscan. unfold generationCycle, onload. rewrite Hscan.
  rewrite bool_decide_eq_true_2 by reflexivity.
  split; [reflexivity|]. eexists. split; [reflexivity|].
  repeat split.
Qed.

Lemma no_shape_stops_cycle_witness :
  onload Examples.always_zero Examples.show_zero Examples.white_data
    Examples.three_notes 0 initial
  = Done (setError (Some no_shape_message) initial) 0
  ∧ ∃ a',
      generationCycle Examples.always_zero Examples.show_zero
        (GenImage Examples.white_data Examples.three_notes) 0 initial
      = Done a' 0
      ∧ placedNotes a' = []
      ∧ error a' = Some no_shape_message
      ∧ isLoading a' = false
      ∧ isPlaying a' = false
      ∧ currentNoteIndex a' = None.
Proof.
  apply (no_shape_stops_cycle Examples.always_zero Examples.show_zero
           Examples.white_data Examples.three_notes 0 initial).
  apply white_no_spots. apply Forall_replicate. lia.
Defined.

End AppFacts.

(** ** Playback *)

Module SchedulerFacts.
Import Placer App Scheduler.

Lemma find_pass_Some (pid : nat) (s : Sched) (p : Pass) :
  find_pass pid s = Some p → p ∈ passes s ∧ pass_id p = pid.
Proof.
  unfold find_pass. intros H.
  apply fmap_Some in H as ([i q] & Hfind & ->).
  apply list_find_Some in Hfind as (Hi & Hq & _).
  split; [|done]. apply list_elem_of_lookup. by exists i.
Qed.

Lemma find_pass_single (p : Pass) (s : Sched) :
  passes s = [p] → find_pass (pass_id p) s = Some p.
Proof.
  unfold find_pass. intros ->. simpl.
  by rewrite decide_True.
Qed.

Lemma drop_pass_single (p : Pass) (s : Sched) :
  passes s = [p] → passes (drop_pass (pass_id p) s) = [].
Proof.
  unfold drop_pass. intros ->. simpl.
  rewrite filter_cons_False; [done|]. by intros [].
Qed.

Lemma find_pass_None (pid : nat) (s : Sched) :
  pid ∉ pass_id <$> passes s → find_pass pid s = None.
Proof.
  unfold find_pass. intros Hnot.
  destruct (list_find _ _) as [[i q]|] eqn:Hfind; [|done].
  apply list_find_Some in Hfind as (Hi & Hq & _).
  exfalso. apply Hnot. apply list_elem_of_fmap. exists q. split; [done|].
  apply list_elem_of_lookup. by exists i.
Qed.

Lemma elem_of_drop_pass (pid : nat) (s : Sched) (p : Pass) :
  p ∈ passes (drop_pass pid s) ↔ p ∈ passes s ∧ pass_id p ≠ pid.
Proof. unfold drop_pass. simpl. rewrite list_elem_of_filter. tauto. Qed.

Lemma played_by_app (pid : nat) (s : Sched) (e : nat * nat) :
  (filter (λ e, e.1 = pid) (played s ++ [e])).*2
  = played_by pid s ++ (if decide (e.1 = pid) then [e.2] else []).
Proof.
  unfold played_by. rewrite filter_app, fmap_app. f_equal.
  rewrite filter_cons. by destruct (decide (e.1 = pid)).
Qed.

(** *** What one event changes *)

Lemma finish_passes (s : Sched) :
  passes (finish s) = passes s ∧ played (finish s) = played s
  ∧ started (finish s) = started s
  ∧ currentNoteIndex (app (finish s)) = None
  ∧ isPlaying (app (finish s)) = false
  ∧ playbackRef (app (finish s)) = false
  ∧ placedNotes (app (finish s)) = placedNotes (app s).
Proof. done. Qed.

(** The loop, entered with the cancellation flag cleared, plays nothing and
    ends the invocation. *)
Lemma loop_head_cancelled (pid : nat) (notes : list PlacedNote) (i : nat)
    (s : Sched) :
  playbackRef (app s) = false → loop_head pid notes i s = finish s.
Proof.
  intros Href. unfold loop_head. rewrite Href. simpl. by case_bool_decide.
Qed.

(** The loop, entered with the flag set and a note left, makes that note the
    current one, hands it to [playNote] and suspends. *)
Lemma loop_head_plays (pid : nat) (notes : list PlacedNote) (i : nat)
    (s : Sched) :
  playbackRef (app s) = true → i < length notes →
  loop_head pid notes i s
  = mkSched (setCurrentNoteIndex (Some i) (app s))
            (passes s ++ [mkPass pid notes i])
            (played s ++ [(pid, i)]) (started s).
Proof.
  intros Href Hi. unfold loop_head. rewrite Href. simpl.
  by rewrite bool_decide_eq_true_2.
Qed.

Lemma loop_head_cases (pid : nat) (notes : list PlacedNote) (i : nat)
    (s : Sched) :
  loop_head pid notes i s = finish s
  ∨ (i < length notes
     ∧ playbackRef (app s) = true
     ∧ loop_head pid notes i s
       = mkSched (setCurrentNoteIndex (Some i) (app s))
                 (passes s ++ [mkPass pid notes i])
                 (played s ++ [(pid, i)]) (started s)).
Proof.
  destruct (playbackRef (app s)) eqn:Href.
  - destruct (decide (i < length notes)) as [Hi|Hi].
    + right. by rewrite loop_head_plays.
    + left. unfold loop_head. by rewrite bool_decide_eq_false_2.
  - left. by apply loop_head_cancelled.
Qed.

(** *** Stop *)

(** C2, as the code has it. A toggle while [isPlaying] is true clears the
    cancellation flag and [isPlaying] at once and returns; it leaves
    [currentNoteIndex] and the suspended invocation alone. The index is
    reset to none when the note in flight finishes and the loop finds the
    flag cleared. *)
Theorem stop_clears_flag_keeps_index (s : Sched) :
  isPlaying (app s) = true →
  let s1 := dispatch s Toggle in
  playbackRef (app s1) = false
  ∧ isPlaying (app s1) = false
  ∧ currentNoteIndex (app s1) = currentNoteIndex (app s)
  ∧ passes s1 = passes s
  ∧ played s1 = played s
  ∧ (∀ p, passes s = [p] →
       currentNoteIndex (app (dispatch s1 (NoteDone (pass_id p)))) = None).
Proof.
  intros Hplaying. simpl. unfold togglePlayback. rewrite Hplaying.
  split_and!; [done..|].
  intros p Hp. unfold noteDone.
  rewrite (find_pass_single p) by done.
  rewrite loop_head_cancelled by done. done.
Qed.

(** With no invocation suspended, completions and failures of notes find
    nothing to resume: only a toggle changes the state. *)
Lemma idle_ignores_note_events (s : Sched) (es : list Event) :
  passes s = [] → Forall (λ e, e ≠ Toggle) es → run s es = s.
Proof.
  intros Hnone. induction 1 as [|e es He _ IH]; [done|].
  simpl. destruct e as [|pid|pid]; [done| |]; simpl.
  - unfold noteDone. rewrite find_pass_None; [done|].
    rewrite Hnone. by intros ?%elem_of_nil.
  - unfold noteFailed. rewrite find_pass_None; [done|].
    rewrite Hnone. by intros ?%elem_of_nil.
Qed.

(** A stop and then the completion of the one sounding note, from any
    state: the note is left sounding, the loop then finds the flag cleared
    and ends the invocation without playing. *)
Lemma stop_then_done (s : Sched) (p : Pass) :
  isPlaying (app s) = true →
  passes s = [p] →
  let s1 := dispatch s Toggle in
  let s2 := dispatch s1 (NoteDone (pass_id p)) in
  (passes s1 = [p] ∧ played s1 = played s
   ∧ currentNoteIndex (app s1) = currentNoteIndex (app s))
  ∧ passes s2 = []
  ∧ played s2 = played s
  ∧ started s2 = started s
  ∧ currentNoteIndex (app s2) = None
  ∧ isPlaying (app s2) = false
  ∧ playbackRef (app s2) = false.
Proof.
  intros Hplaying Hp. simpl. unfold togglePlayback. rewrite Hplaying.
  unfold noteDone. rewrite (find_pass_single p) by done.
  rewrite loop_head_cancelled by done.
  split_and!; [done|done|done| |done..].
  apply (drop_pass_single p). done.
Qed.

(** Without a stop the same completion moves on to the next note: the test
    of the flag at the note boundary is all that tells the two apart. *)
Lemma note_done_advances (s : Sched) (p : Pass) :
  playbackRef (app s) = true →
  passes s = [p] →
  S (pass_index p) < length (pass_notes p) →
  let s1 := dispatch s (NoteDone (pass_id p)) in
  passes s1 = [mkPass (pass_id p) (pass_notes p) (S (pass_index p))]
  ∧ played s1 = played s ++ [(pass_id p, S (pass_index p))]
  ∧ currentNoteIndex (app s1) = Some (S (pass_index p)).
Proof.
  intros Href Hp Hi. simpl. unfold noteDone.
  rewrite (find_pass_single p) by done.
  rewrite loop_head_plays by done.
  split_and!; [|done|done].
  cbn [passes]. by rewrite (drop_pass_single p).
Qed.

(** *** Failure of the tone primitive *)

Lemma played_by_other (pid pid' : nat) (s : Sched) (i : nat) :
  pid' ≠ pid →
  (filter (λ e, e.1 = pid) (played s ++ [(pid', i)])).*2 = played_by pid s.
Proof.
  intros Hne. rewrite played_by_app. simpl.
  rewrite decide_False by done. by rewrite app_nil_r.
Qed.

Lemma played_by_same (pid : nat) (s : Sched) (i : nat) :
  (filter (λ e, e.1 = pid) (played s ++ [(pid, i)])).*2
  = played_by pid s ++ [i].
Proof. rewrite played_by_app. simpl. by rewrite decide_True. Qed.

Lemma drop_pass_ids (pid pid' : nat) (s : Sched) :
  pid ∈ pass_id <$> passes (drop_pass pid' s) →
  pid ∈ pass_id <$> passes s ∧ pid ≠ pid'.
Proof.
  intros (p & -> & [Hp Hne]%elem_of_drop_pass)%list_elem_of_fmap.
  split; [|done]. apply list_elem_of_fmap. by exists p.
Qed.

(** An invocation that is over stays over: no later event makes it play. *)
Lemma over_step (pid : nat) (s : Sched) (e : Event) :
  pid < started s →
  pid ∉ pass_id <$> passes s →
  pid < started (dispatch s e)
  ∧ (pid ∉ pass_id <$> passes (dispatch s e))
  ∧ played_by pid (dispatch s e) = played_by pid s.
Proof.
  intros Hlt Hnot. destruct e as [|pid'|pid']; simpl.
  - unfold togglePlayback. destruct (isPlaying (app s)); [done|].
    case_bool_decide; [done|].
    rewrite loop_head_plays; [|done|lia]. simpl. split_and!.
    + lia.
    + rewrite fmap_app, elem_of_app. intros [?|?%list_elem_of_singleton].
      * done.
      * simpl in *. lia.
    + apply (played_by_other pid (started s) s 0). lia.
  - unfold noteDone. destruct (find_pass pid' s) as [p|] eqn:Hfind; [|done].
    apply find_pass_Some in Hfind as [Hp <-].
    assert (pass_id p ≠ pid) as Hne.
    { intros <-. apply Hnot. apply list_elem_of_fmap. by exists p. }
    assert (pid ∉ pass_id <$> passes (drop_pass (pass_id p) s)) as Hnot'.
    { by intros [? _]%drop_pass_ids. }
    destruct (loop_head_cases (pass_id p) (pass_notes p) (S (pass_index p))
                (drop_pass (pass_id p) s)) as [->|(_ & _ & ->)].
    + done.
    + simpl. split_and!.
      * done.
      * change (filter _ (passes s)) with (passes (drop_pass (pass_id p) s)).
        rewrite fmap_app, elem_of_app.
        intros [?|?%list_elem_of_singleton]; [done|]. simpl in *. lia.
      * by apply (played_by_other pid (pass_id p) s).
  - unfold noteFailed. destruct (find_pass pid' s) as [p|]; [|done].
    split_and!; [done| |done]. by intros [? _]%drop_pass_ids.
Qed.

Lemma over_run (pid : nat) (es : list Event) :
  ∀ s,
    pid < started s →
    pid ∉ pass_id <$> passes s →
    played_by pid (run s es) = played_by pid s
    ∧ pid ∉ (pass_id <$> passes (run s es)).
Proof.
  induction es as [|e es IH]; intros s Hlt Hnot; [done|].
  destruct (over_step pid s e Hlt Hnot) as (Hlt' & Hnot' & Hsame).
  simpl. destruct (IH (dispatch s e) Hlt' Hnot') as [-> ?]. done.
Qed.

(** *** The invariant of reachable states *)

Lemma consistent_loaded (notes : list PlacedNote) :
  consistent notes (loaded notes).
Proof.
  unfold consistent, loaded. simpl. split_and!.
  - done.
  - constructor.
  - by intros p ?%elem_of_nil.
  - intros pid. exists 0. split; [lia|done].
  - done.
Qed.

Lemma consistent_app (notes : list PlacedNote) (f : State → State)
    (s : Sched) :
  placedNotes (f (app s)) = placedNotes (app s) →
  consistent notes s → consistent notes (with_app f s).
Proof.
  intros Hf (Hnotes & Hnd & Hpass & Hseg & Hfresh).
  unfold consistent. simpl. rewrite Hf. done.
Qed.

Lemma consistent_drop (notes : list PlacedNote) (pid : nat) (s : Sched) :
  consistent notes s → consistent notes (drop_pass pid s).
Proof.
  intros (Hnotes & Hnd & Hpass & Hseg & Hfresh).
  unfold consistent. split_and!; [done| |  |done..].
  - unfold drop_pass. simpl.
    eapply sublist_NoDup; [done|].
    apply fmap_sublist, sublist_filter.
  - intros p [Hp _]%elem_of_drop_pass. by apply Hpass.
Qed.

(** Handing the next note of an invocation to [playNote] keeps the
    invariant. *)
Lemma consistent_play (notes : list PlacedNote) (pid i : nat) (s : Sched) :
  consistent notes s →
  pid < started s →
  pid ∉ pass_id <$> passes s →
  played_by pid s = seq 0 i →
  i < length notes →
  consistent notes
    (mkSched (setCurrentNoteIndex (Some i) (app s))
             (passes s ++ [mkPass pid notes i])
             (played s ++ [(pid, i)]) (started s)).
Proof.
  intros (Hnotes & Hnd & Hpass & Hseg & Hfresh) Hlt Hnot Hplayed Hi.
  unfold consistent. cbn [app passes played started]. split_and!.
  - done.
  - rewrite fmap_app. apply NoDup_app. split_and!; [done| |].
    + intros q Hq ->%list_elem_of_singleton. done.
    + apply NoDup_singleton.
  - intros p [Hp| ->%list_elem_of_singleton]%elem_of_app.
    + destruct (Hpass p Hp) as (? & ? & ? & Hpl).
      split_and!; [done..|].
      rewrite <- Hpl. apply (played_by_other (pass_id p) pid s i).
      intros ->. apply Hnot. apply list_elem_of_fmap. by exists p.
    + cbn [pass_id pass_notes pass_index]. split_and!; [done..|].
      unfold played_by. cbn [played].
      rewrite (played_by_same pid s i), Hplayed. by rewrite seq_S.
  - intros pid'. destruct (decide (pid = pid')) as [<-|Hne].
    + exists (S i). split; [lia|]. unfold played_by. cbn [played].
      rewrite (played_by_same pid s i), Hplayed. by rewrite seq_S.
    + destruct (Hseg pid') as (k & ? & Hk). exists k. split; [done|].
      rewrite <- Hk. by apply (played_by_other pid' pid s i).
  - intros pid' Hge. rewrite <- (Hfresh pid' Hge).
    apply (played_by_other pid' pid s i). lia.
Qed.

Lemma consistent_loop_head (notes : list PlacedNote) (pid i : nat)
    (s : Sched) :
  consistent notes s →
  pid < started s →
  pid ∉ pass_id <$> passes s →
  played_by pid s = seq 0 i →
  consistent notes (loop_head pid notes i s).
Proof.
  intros Hs Hlt Hnot Hplayed.
  destruct (loop_head_cases pid notes i s) as [->|(Hi & _ & ->)].
  - by apply consistent_app.
  - by apply consistent_play.
Qed.

Lemma consistent_step (notes : list PlacedNote) (s : Sched) (e : Event) :
  consistent notes s → consistent notes (dispatch s e).
Proof.
  intros Hs. destruct e as [|pid|pid]; simpl.
  - unfold togglePlayback. destruct (isPlaying (app s)).
    { by apply consistent_app. }
    case_bool_decide as Hempty; [done|].
    destruct Hs as (Hnotes & Hnd & Hpass & Hseg & Hfresh).
    rewrite Hnotes in *.
    apply consistent_loop_head; simpl.
    + unfold consistent. simpl. split_and!; [done|done| |done|].
      * intros p Hp. destruct (Hpass p Hp) as (? & ? & ? & ?).
        split_and!; [lia|done..].
      * intros pid Hge. apply Hfresh. lia.
    + lia.
    + intros (p & Hid & Hp)%list_elem_of_fmap.
      destruct (Hpass p Hp) as (? & _). lia.
    + by apply Hfresh.
  - unfold noteDone. destruct (find_pass pid s) as [p|] eqn:Hfind; [|done].
    apply find_pass_Some in Hfind as [Hp <-].
    pose proof Hs as (Hnotes & Hnd & Hpass & Hseg & Hfresh).
    destruct (Hpass p Hp) as (Hlt & Hpn & Hi & Hpl). rewrite Hpn.
    apply consistent_loop_head.
    + by apply consistent_drop.
    + done.
    + by intros [_ ?]%drop_pass_ids.
    + done.
  - unfold noteFailed. destruct (find_pass pid s) as [p|]; [|done].
    by apply consistent_drop.
Qed.

Lemma consistent_run (notes : list PlacedNote) (es : list Event) :
  ∀ s, consistent notes s → consistent notes (run s es).
Proof.
  induction es as [|e es IH]; intros s Hs; [done|].
  simpl. apply IH. by apply consistent_step.
Qed.

(** *** One pass at a time *)

Lemma calm_step (s : Sched) (e : Event) :
  length (passes s) ≤ 1 →
  (is_start s e → passes s = []) →
  length (passes (dispatch s e)) ≤ 1.
Proof.
  intros Hone Hcalm. destruct e as [|pid|pid]; simpl.
  - unfold togglePlayback. destruct (isPlaying (app s)) eqn:Hplaying; [done|].
    case_bool_decide; [done|].
    rewrite loop_head_plays; [|done|lia]. simpl.
    rewrite Hcalm by done. simpl. lia.
  - unfold noteDone. destruct (find_pass pid s) as [p|] eqn:Hfind; [|done].
    apply find_pass_Some in Hfind as [Hp <-].
    assert (passes s = [p]) as Hsingle.
    { destruct (passes s) as [|q [|q' l]]; simpl in Hone.
      - by apply elem_of_nil in Hp.
      - by apply list_elem_of_singleton in Hp as ->.
      - lia. }
    pose proof (drop_pass_single p s Hsingle) as Hdrop.
    destruct (loop_head_cases (pass_id p) (pass_notes p) (S (pass_index p))
                (drop_pass (pass_id p) s)) as [->|(_ & _ & ->)].
    + simpl. change (filter _ (passes s))
        with (passes (drop_pass (pass_id p) s)). rewrite Hdrop. simpl. lia.
    + simpl. change (filter _ (passes s))
        with (passes (drop_pass (pass_id p) s)). rewrite Hdrop. simpl. lia.
  - unfold noteFailed. destruct (find_pass pid s) as [p|]; [|done].
    simpl. etrans; [apply length_filter|done].
Qed.

Lemma calm_run (es : list Event) :
  ∀ s, length (passes s) ≤ 1 → calm s es → length (passes (run s es)) ≤ 1.
Proof.
  induction es as [|e es IH]; intros s Hone Hcalm; [done|].
  destruct Hcalm as [Hhere Hrest].
  simpl. apply IH; [|done]. by apply calm_step.
Qed.

(** *** The claims on failure and on single passes *)

Lemma find_pass_elem_of (p : Pass) (s : Sched) :
  p ∈ passes s → is_Some (find_pass (pass_id p) s).
Proof.
  intros Hp. unfold find_pass. apply fmap_is_Some.
  by apply (list_find_elem_of _ _ p).
Qed.

(** What a failure of the tone primitive does in a state the scheduler can
    reach: the invocation that waits on the note ends there and never plays
    another note, now or after any later events. The step itself touches
    nothing else: the lines after the loop do not run, so the state of the
    component is, right after the failure, what it was before. *)
Lemma failure_aborts_pass_only (notes : list PlacedNote)
    (es0 : list Event) (p : Pass) :
  let s := run (loaded notes) es0 in
  p ∈ passes s →
  let s1 := dispatch s (NoteFailed (pass_id p)) in
  app s1 = app s
  ∧ played s1 = played s
  ∧ (∀ q, q ∈ passes s1 ↔ q ∈ passes s ∧ pass_id q ≠ pass_id p)
  ∧ ∀ es,
      played_by (pass_id p) (run s1 es) = played_by (pass_id p) s
      ∧ pass_id p ∉ pass_id <$> passes (run s1 es).
Proof.
  intros s Hp s1.
  pose proof (consistent_run notes es0 _ (consistent_loaded notes))
    as (_ & _ & Hpass & _).
  destruct (Hpass p Hp) as (Hlt & _).
  destruct (find_pass_elem_of p s Hp) as [q Hq].
  assert (s1 = drop_pass (pass_id p) s) as ->.
  { unfold s1. simpl. unfold noteFailed. by rewrite Hq. }
  split_and!; [done|done| |].
  - intros q'. apply elem_of_drop_pass.
  - intros es.
    apply (over_run (pass_id p) es (drop_pass (pass_id p) s)); [done|].
    by intros [_ ?]%drop_pass_ids.
Qed.

(** With the flag cleared and [isPlaying] false, an event other than a
    press of the button plays nothing: an invocation whose note finishes
    finds the flag cleared and ends, one whose note fails ends as well, and
    the others stay suspended. *)
Lemma quiet_step (s : Sched) (e : Event) :
  playbackRef (app s) = false →
  isPlaying (app s) = false →
  e ≠ Toggle →
  let s' := dispatch s e in
  playbackRef (app s') = false
  ∧ isPlaying (app s') = false
  ∧ played s' = played s
  ∧ started s' = started s
  ∧ (currentNoteIndex (app s') = currentNoteIndex (app s)
     ∨ currentNoteIndex (app s') = None)
  ∧ (∀ q, q ∈ passes s' → q ∈ passes s)
  ∧ (∀ q, q ∈ passes s →
       e ≠ NoteDone (pass_id q) → e ≠ NoteFailed (pass_id q) →
       q ∈ passes s').
Proof.
  intros Href Hplaying He. destruct e as [|pid|pid]; [done| |]; simpl.
  - unfold noteDone. destruct (find_pass pid s) as [p|] eqn:Hfind.
    + rewrite loop_head_cancelled by done.
      split_and!; [done|done|done|done|by right| |].
      * by intros q [? _]%elem_of_drop_pass.
      * intros q Hq Hne _. apply elem_of_drop_pass. split; [done|].
        intros Heq. apply Hne. by rewrite Heq.
    + split_and!; [done..|by left|done|done].
  - unfold noteFailed. destruct (find_pass pid s) as [p|] eqn:Hfind.
    + split_and!; [done|done|done|done|by left| |].
      * by intros q [? _]%elem_of_drop_pass.
      * intros q Hq _ Hne. apply elem_of_drop_pass. split; [done|].
        intros Heq. apply Hne. by rewrite Heq.
    + split_and!; [done..|by left|done|done].
Qed.

Lemma quiet_run (es : list Event) :
  ∀ s,
    playbackRef (app s) = false →
    isPlaying (app s) = false →
    Forall (λ e, e ≠ Toggle) es →
    let s' := run s es in
    playbackRef (app s') = false
    ∧ isPlaying (app s') = false
    ∧ played s' = played s
    ∧ started s' = started s
    ∧ (currentNoteIndex (app s') = currentNoteIndex (app s)
       ∨ currentNoteIndex (app s') = None)
    ∧ (∀ q, q ∈ passes s' → q ∈ passes s)
    ∧ (∀ q, q ∈ passes s →
         Forall (λ e, e ≠ NoteDone (pass_id q) ∧ e ≠ NoteFailed (pass_id q))
           es →
         q ∈ passes s').
Proof.
  induction es as [|e es IH]; intros s Href Hplaying Hes.
  - simpl. split_and!; [done..|by left|done|done].
  - apply Forall_cons in Hes as [He Hes].
    destruct (quiet_step s e Href Hplaying He)
      as (Href' & Hplaying' & Hplayed & Hstarted & Hidx & Hsub & Hstay).
    destruct (IH (dispatch s e) Href' Hplaying' Hes)
      as (? & ? & Hplayed' & Hstarted' & Hidx' & Hsub' & Hstay').
    simpl. split_and!; [done|done|congruence|congruence| | |].
    + destruct Hidx' as [->|?]; [done|by right].
    + intros q Hq. by apply Hsub, Hsub'.
    + intros q Hq [[? ?] Hrest]%Forall_cons.
      apply Hstay'; [|done]. by apply Hstay.
Qed.

(** C7, as the code has it. In a state the scheduler can reach, with
    [isPlaying] true and an invocation [p] suspended on a sounding note: a
    stop leaves that note sounding, plays nothing and does not move the
    index. As long as the button is not pressed again, whatever else happens
    (notes of other invocations finishing or failing), nothing is played and
    the index is not advanced. When the note of [p] then finishes, the loop
    tests the flag once, finds it cleared and ends the invocation, whatever
    notes are left: nothing more is handed to [playNote], the index is reset
    to none and the scheduler is idle. The invocation never plays again,
    whatever comes later. When [p] was the only invocation, nothing is left
    suspended, and until the next press of the button nothing changes. *)
Theorem stop_ends_pass_at_note_boundary (notes : list PlacedNote)
    (es0 mid : list Event) (p : Pass) :
  let s := run (loaded notes) es0 in
  isPlaying (app s) = true →
  p ∈ passes s →
  Forall (λ e, e ≠ Toggle ∧ e ≠ NoteDone (pass_id p)
               ∧ e ≠ NoteFailed (pass_id p)) mid →
  let s0 := dispatch s Toggle in
  let s1 := run s0 mid in
  let s2 := dispatch s1 (NoteDone (pass_id p)) in
  (passes s0 = passes s ∧ played s0 = played s
   ∧ currentNoteIndex (app s0) = currentNoteIndex (app s))
  ∧ (p ∈ passes s1 ∧ played s1 = played s
     ∧ (currentNoteIndex (app s1) = currentNoteIndex (app s)
        ∨ currentNoteIndex (app s1) = None))
  ∧ (pass_id p ∉ pass_id <$> passes s2)
  ∧ played s2 = played s
  ∧ currentNoteIndex (app s2) = None
  ∧ isPlaying (app s2) = false
  ∧ playbackRef (app s2) = false
  ∧ (∀ es, played_by (pass_id p) (run s2 es) = played_by (pass_id p) s)
  ∧ (passes s = [p] →
       passes s2 = []
       ∧ ∀ es, Forall (λ e, e ≠ Toggle) es → run s2 es = s2).
Proof.
  intros s Hplaying Hp Hmid s0 s1 s2.
  assert (s0 = with_app (λ a, setIsPlaying false (setPlaybackRef false a)) s)
    as Hs0.
  { unfold s0. simpl. unfold togglePlayback. by rewrite Hplaying. }
  assert (Forall (λ e, e ≠ Toggle) mid) as Hquiet.
  { eapply Forall_impl; [exact Hmid|]. by intros e (? & _). }
  assert (Forall (λ e, e ≠ NoteDone (pass_id p) ∧ e ≠ NoteFailed (pass_id p))
            mid) as Hown.
  { eapply Forall_impl; [exact Hmid|]. by intros e (_ & ? & ?). }
  destruct (quiet_run mid s0)
    as (Href1 & Hplaying1 & Hplayed1 & Hstarted1 & Hidx1 & Hsub1 & Hstay1);
    [by rewrite Hs0..|done|].
  fold s1 in Href1, Hplaying1, Hplayed1, Hstarted1, Hidx1, Hsub1, Hstay1.
  assert (p ∈ passes s1) as Hp1.
  { apply Hstay1; [|done]. by rewrite Hs0. }
  destruct (find_pass_elem_of p s1 Hp1) as [q Hq].
  assert (s2 = finish (drop_pass (pass_id p) s1)) as Hs2.
  { unfold s2. simpl. unfold noteDone. rewrite Hq.
    by rewrite loop_head_cancelled. }
  assert (pass_id p ∉ pass_id <$> passes s2) as Hgone.
  { rewrite Hs2. by intros [_ ?]%drop_pass_ids. }
  assert (played s2 = played s) as Hplayed2.
  { rewrite Hs2. simpl. rewrite Hplayed1. by rewrite Hs0. }
  split_and!.
  - by rewrite Hs0.
  - by rewrite Hs0.
  - by rewrite Hs0.
  - done.
  - rewrite Hplayed1. by rewrite Hs0.
  - rewrite Hs0 in Hidx1. done.
  - done.
  - done.
  - by rewrite Hs2.
  - by rewrite Hs2.
  - by rewrite Hs2.
  - intros es.
    pose proof (consistent_run notes es0 _ (consistent_loaded notes))
      as (_ & _ & Hpass & _).
    destruct (Hpass p Hp) as (Hlt & _). fold s in Hlt.
    destruct (over_run (pass_id p) es s2) as [-> _]; [|done|].
    + rewrite Hs2. simpl. rewrite Hstarted1. by rewrite Hs0.
    + unfold played_by. by rewrite Hplayed2.
  - intros Hsingle.
    assert (passes s2 = []) as Hnone.
    { destruct (passes s2) as [|r l] eqn:Hl; [done|]. exfalso.
      assert (r ∈ passes s2) as Hr by (rewrite Hl; left).
      rewrite Hs2 in Hr. apply elem_of_drop_pass in Hr as [Hr Hne].
      apply Hsub1 in Hr. rewrite Hs0 in Hr. simpl in Hr.
      rewrite Hsingle in Hr. apply list_elem_of_singleton in Hr.
      by subst r. }
    split; [done|]. intros es. by apply idle_ignores_note_events.
Qed.

(** C8, as the code has it. Along any sequence of events in which the
    button is not pressed to start while an invocation is still suspended:
    at most one invocation is suspended, so at most one note sounds. In
    every state reached, a toggle while [isPlaying] is true starts nothing,
    a toggle on an empty sequence changes nothing, no invocation waits on
    two notes, and every invocation has played the notes [0, 1, ..] in
    order. *)
Theorem one_pass_while_calm (notes : list PlacedNote) (es : list Event) :
  calm (loaded notes) es →
  let s := run (loaded notes) es in
  length (passes s) ≤ 1
  ∧ (isPlaying (app s) = true →
       passes (dispatch s Toggle) = passes s
       ∧ played (dispatch s Toggle) = played s
       ∧ started (dispatch s Toggle) = started s)
  ∧ (isPlaying (app s) = false → placedNotes (app s) = [] →
       dispatch s Toggle = s)
  ∧ NoDup (pass_id <$> passes s)
  ∧ (∀ pid, ∃ k, k ≤ length notes ∧ played_by pid s = seq 0 k).
Proof.
  intros Hcalm s.
  pose proof (consistent_run notes es _ (consistent_loaded notes))
    as (_ & Hnd & _ & Hseg & _).
  split_and!.
  - apply calm_run; [simpl; lia|done].
  - intros Hplaying. simpl. unfold togglePlayback. by rewrite Hplaying.
  - intros Hidle Hempty. simpl. unfold togglePlayback.
    rewrite Hidle, Hempty. done.
  - done.
  - done.
Qed.

(** *** The claims at concrete inputs *)

Lemma stop_clears_flag_keeps_index_witness :
  let s1 := dispatch Examples.playing Toggle in
  playbackRef (app s1) = false
  ∧ isPlaying (app s1) = false
  ∧ currentNoteIndex (app s1) = currentNoteIndex (app Examples.playing)
  ∧ passes s1 = passes Examples.playing
  ∧ played s1 = played Examples.playing
  ∧ (∀ p, passes Examples.playing = [p] →
       currentNoteIndex (app (dispatch s1 (NoteDone (pass_id p)))) = None).
Proof.
  apply (stop_clears_flag_keeps_index Examples.playing). reflexivity.
Defined.

(** C2 fails as stated. After a start, a stop clears the flag but
    [currentNoteIndex] still names note 0, which is still sounding. *)
Lemma stop_leaves_index_set :
  isPlaying (app Examples.playing) = true
  ∧ playbackRef (app (dispatch Examples.playing Toggle)) = false
  ∧ currentNoteIndex (app (dispatch Examples.playing Toggle)) = Some 0
  ∧ currentNoteIndex (app (dispatch Examples.playing Toggle)) ≠ None
  ∧ passes (dispatch Examples.playing Toggle) = [Examples.first_pass].
Proof. split_and!; done. Qed.

(** Two invocations are suspended on note 0 (start, stop, start); the
    button stops the playback, the note of invocation 1 finishes, then that
    of invocation 0. *)
Lemma stop_ends_pass_at_note_boundary_witness :
  let s := run (loaded Examples.two_placed) [Toggle; Toggle; Toggle] in
  let s0 := dispatch s Toggle in
  let s1 := run s0 [NoteDone 1] in
  let s2 := dispatch s1 (NoteDone (pass_id Examples.first_pass)) in
  (passes s0 = passes s ∧ played s0 = played s
   ∧ currentNoteIndex (app s0) = currentNoteIndex (app s))
  ∧ (Examples.first_pass ∈ passes s1 ∧ played s1 = played s
     ∧ (currentNoteIndex (app s1) = currentNoteIndex (app s)
        ∨ currentNoteIndex (app s1) = None))
  ∧ (pass_id Examples.first_pass ∉ pass_id <$> passes s2)
  ∧ played s2 = played s
  ∧ currentNoteIndex (app s2) = None
  ∧ isPlaying (app s2) = false
  ∧ playbackRef (app s2) = false
  ∧ (∀ es, played_by (pass_id Examples.first_pass) (run s2 es)
           = played_by (pass_id Examples.first_pass) s)
  ∧ (passes s = [Examples.first_pass] →
       passes s2 = []
       ∧ ∀ es, Forall (λ e, e ≠ Toggle) es → run s2 es = s2).
Proof.
  apply (stop_ends_pass_at_note_boundary Examples.two_placed
           [Toggle; Toggle; Toggle] [NoteDone 1] Examples.first_pass).
  - reflexivity.
  - apply list_elem_of_lookup. exists 0. reflexivity.
  - repeat constructor; discriminate.
Defined.

(** C7 fails as stated. Invocation 0 waits on note 0, the button stops the
    playback and is pressed again before the note has finished: when it
    does, the stopped invocation finds the flag set again, hands note 1 to
    [playNote] and advances the index; it is still suspended, and goes on to
    the end of the sequence. *)
Lemma restart_revives_stopped_pass :
  let s := Examples.playing in
  let s1 := dispatch s Toggle in
  let s2 := run s1 [Toggle; NoteDone 0] in
  (isPlaying (app s) = true ∧ passes s = [Examples.first_pass]
   ∧ played_by 0 s = [0])
  ∧ playbackRef (app s1) = false
  ∧ played_by 0 s2 = [0; 1]
  ∧ currentNoteIndex (app s2) = Some 1
  ∧ mkPass 0 Examples.two_placed 1 ∈ passes s2.
Proof.
  split_and!; [done..|].
  apply list_elem_of_lookup. exists 1. reflexivity.
Qed.

Lemma failure_aborts_pass_only_witness :
  let s := run (loaded Examples.two_placed) [Toggle] in
  let s1 := dispatch s (NoteFailed (pass_id Examples.first_pass)) in
  app s1 = app s
  ∧ played s1 = played s
  ∧ (∀ q, q ∈ passes s1 ↔
            q ∈ passes s ∧ pass_id q ≠ pass_id Examples.first_pass)
  ∧ ∀ es,
      played_by (pass_id Examples.first_pass) (run s1 es)
      = played_by (pass_id Examples.first_pass) s
      ∧ pass_id Examples.first_pass ∉ pass_id <$> passes (run s1 es).
Proof.
  apply (failure_aborts_pass_only Examples.two_placed [Toggle]
           Examples.first_pass).
  apply list_elem_of_singleton. reflexivity.
Defined.

(** C3, the code at the failing input. Two notes are placed, the button
    starts the playback and the tone of note 0 fails. The rejected [await]
    ends [togglePlayback] before lines 121-123: no invocation is left, yet
    [isPlaying] is still true, [currentNoteIndex] still names note 0 and the
    flag is still set, and no completion or failure of a note changes that.
    The claim has the scheduler idle there. *)
Lemma failure_leaves_playing :
  let s := run Examples.ready [Toggle; NoteFailed 0] in
  passes s = []
  ∧ isPlaying (app s) = true
  ∧ currentNoteIndex (app s) = Some 0
  ∧ playbackRef (app s) = true
  ∧ ∀ es, Forall (λ e, e ≠ Toggle) es → run s es = s.
Proof.
  split_and!; [done..|].
  intros es. by apply idle_ignores_note_events.
Qed.

Lemma one_pass_while_calm_witness :
  let s :=
    run (loaded Examples.two_placed)
      [Toggle; NoteDone 0; Toggle; NoteDone 0; Toggle] in
  length (passes s) ≤ 1
  ∧ (isPlaying (app s) = true →
       passes (dispatch s Toggle) = passes s
       ∧ played (dispatch s Toggle) = played s
       ∧ started (dispatch s Toggle) = started s)
  ∧ (isPlaying (app s) = false → placedNotes (app s) = [] →
       dispatch s Toggle = s)
  ∧ NoDup (pass_id <$> passes s)
  ∧ (∀ pid, ∃ k, k ≤ length Examples.two_placed
                 ∧ played_by pid s = seq 0 k).
Proof.
  apply (one_pass_while_calm Examples.two_placed
           [Toggle; NoteDone 0; Toggle; NoteDone 0; Toggle]).
  simpl. unfold is_start. repeat split; intros [? ?]; done.
Defined.

(** C8 fails as stated. Start, stop, start again while note 0 of the first
    invocation still sounds: the second start is no no-op, two invocations
    are suspended and two notes sound; when the first note finishes, the
    first invocation finds the flag set again and goes on with note 1. *)
Lemma restart_runs_two_passes :
  let s := run Examples.ready [Toggle; Toggle] in
  let s' := dispatch s Toggle in
  (passes s = [Examples.first_pass] ∧ isPlaying (app s) = false)
  ∧ s' ≠ s
  ∧ length (passes s') = 2
  ∧ played s' = [(0, 0); (1, 0)]
  ∧ played (dispatch s' (NoteDone 0)) = [(0, 0); (1, 0); (0, 1)]
  ∧ length (passes (dispatch s' (NoteDone 0))) = 2.
Proof. split_and!; done. Qed.

End SchedulerFacts.

(** ** More on the pixel scan *)

Module SamplerMore.
Import Sampler SamplerFacts.

Lemma row_major_irrefl (p : Spot) : ¬ row_major p p.
Proof. unfold row_major. lia. Qed.

Lemma sorted_NoDup {A : Type} (R : relation A) (l : list A) :
  (∀ a, ¬ R a a) → StronglySorted R l → NoDup l.
Proof.
  intros Hirr. induction 1 as [|a l _ IH Ha]; constructor; [|done].
  intros Hin. rewrite Forall_forall in Ha. by apply (Hirr a), Ha.
Qed.

Lemma length_counter_values (n i stp : nat) :
  length (counter_values n i stp) = n.
Proof.
  revert i. induction n as [|n IH]; intros i; simpl; [done|]. by rewrite IH.
Qed.

Lemma length_bind_le {A B : Type} (F : A → list B) (l : list A) (c : nat) :
  (∀ a, length (F a) ≤ c) → length (l ≫= F) ≤ length l * c.
Proof.
  intros HF. induction l as [|a l IH]; [done|].
  change ((a :: l) ≫= F) with (F a ++ (l ≫= F)).
  rewrite length_app. simpl. specialize (HF a). lia.
Qed.

Lemma bind_ext_in {A B : Type} (F G : A → list B) (l : list A) :
  (∀ a, a ∈ l → F a = G a) → l ≫= F = l ≫= G.
Proof.
  induction l as [|a l IH]; intros HFG; [done|].
  change (F a ++ (l ≫= F) = G a ++ (l ≫= G)).
  rewrite HFG by left. rewrite IH; [done|].
  intros b Hb. apply HFG. by right.
Qed.

Lemma closed_form_sorted (data : list nat) :
  StronglySorted row_major
    (counter_values 32 step step ≫= λ py,
       counter_values 32 step step ≫= pushed data py).
Proof.
  apply (bind_sorted lt).
  - apply counter_values_sorted. unfold step. lia.
  - intros py _. apply row_sorted.
  - intros y1 y2 b1 b2 ? _ _ (E1 & _)%elem_of_row (E2 & _)%elem_of_row.
    left. lia.
Qed.

(** X1. Whatever the buffer, the scan yields pairwise distinct spots, and
    at most 32 x 32 of them. *)
Theorem sampled_spots_distinct_bounded (data : list nat) :
  ∃ spots,
    sampleSpots data = Some spots
    ∧ NoDup spots
    ∧ length spots ≤ 32 * 32.
Proof.
  eexists. split; [apply sampleSpots_closed|]. split.
  - eapply sorted_NoDup; [apply row_major_irrefl|apply closed_form_sorted].
  - etrans; [apply (length_bind_le _ _ 32)|].
    + intros py. etrans; [apply (length_bind_le _ _ 1)|].
      * intros px. unfold pushed. destruct (is_dark data px py); simpl; lia.
      * rewrite length_counter_values. lia.
    + rewrite length_counter_values. lia.
Qed.

(** The test of line 45 reads three bytes only. *)
Lemma is_dark_agree (data data' : list nat) (px py : nat) :
  (∀ c, c < 3 →
     data !! ((py * 500 + px) * 4 + c)
     = data' !! ((py * 500 + px) * 4 + c)) →
  is_dark data px py = is_dark data' px py.
Proof.
  intros Hagree. unfold is_dark.
  pose proof (Hagree 0) as H0. rewrite Nat.add_0_r in H0.
  rewrite H0, (Hagree 1), (Hagree 2) by lia. done.
Qed.

(** X2. The scan depends on the buffer only through the red, green and blue
    bytes of the pixels on the grid: two buffers that agree there give the
    same spots, whatever their alpha bytes, their other pixels and their
    lengths. *)
Theorem scan_reads_grid_rgb_only (data data' : list nat) :
  (∀ px py c,
     step ≤ px < 500 - step → px mod step = 0 →
     step ≤ py < 500 - step → py mod step = 0 →
     c < 3 →
     data !! ((py * 500 + px) * 4 + c)
     = data' !! ((py * 500 + px) * 4 + c)) →
  sampleSpots data = sampleSpots data'.
Proof.
  intros Hagree. rewrite !sampleSpots_closed. f_equal.
  apply bind_ext_in. intros py [Hpy Hpy']%elem_of_grid.
  apply bind_ext_in. intros px [Hpx Hpx']%elem_of_grid.
  unfold pushed. rewrite (is_dark_agree data data' px py); [done|].
  intros c Hc. by apply Hagree.
Qed.

(** The byte of channel [c] of the pixel [(px, py)] of a canvas. *)
Lemma canvas_lookup (rgba : nat → nat → nat → nat) (px py c : nat) :
  px < 500 → py < 500 → c < 4 →
  MoreExamples.canvas rgba !! ((py * 500 + px) * 4 + c)
  = Some (rgba px py c).
Proof.
  intros Hpx Hpy Hc. unfold MoreExamples.canvas.
  assert (((py * 500 + px) * 4 + c) / 4 = py * 500 + px) as Hdiv.
  { symmetry. apply (Nat.div_unique _ 4 _ c); lia. }
  assert (((py * 500 + px) * 4 + c) mod 4 = c) as Hmod.
  { symmetry. apply (Nat.mod_unique _ 4 (py * 500 + px)); lia. }
  assert ((py * 500 + px) / 500 = py) as Hrow.
  { symmetry. apply (Nat.div_unique _ 500 _ px); lia. }
  assert ((py * 500 + px) mod 500 = px) as Hcol.
  { symmetry. apply (Nat.mod_unique _ 500 py); lia. }
  rewrite list_lookup_fmap. apply fmap_Some.
  exists ((py * 500 + px) * 4 + c). split.
  - apply (lookup_seq_lt 0). lia.
  - by rewrite Hdiv, Hmod, Hrow, Hcol.
Qed.

Lemma length_canvas (rgba : nat → nat → nat → nat) :
  length (MoreExamples.canvas rgba) = 500 * 500 * 4.
Proof. unfold MoreExamples.canvas. by rewrite length_fmap, length_seq. Qed.

(** The test of line 45 on a white canvas with black pixels at [spots]
    holds at those pixels only, whatever the alpha bytes. *)
Lemma is_dark_dark_at (spots : list Spot) (alpha px py : nat) :
  px < 500 → py < 500 →
  is_dark (MoreExamples.dark_at spots alpha) px py
  = bool_decide (mkSpot px py ∈ spots).
Proof.
  intros Hpx Hpy. unfold is_dark, MoreExamples.dark_at.
  set (rgba := λ qx qy c : nat, _).
  pose proof (canvas_lookup rgba px py 0 Hpx Hpy) as H0.
  rewrite Nat.add_0_r in H0.
  rewrite H0, (canvas_lookup rgba px py 1), (canvas_lookup rgba px py 2)
    by lia.
  unfold rgba. rewrite !(bool_decide_eq_false_2 (_ = 3)) by lia.
  by case_bool_decide.
Qed.

(** The scan of such a canvas: the pixels of the grid that are in
    [spots], row by row. *)
Lemma scan_dark_at (spots : list Spot) (alpha : nat) :
  sampleSpots (MoreExamples.dark_at spots alpha)
  = Some (counter_values 32 step step ≫= λ py,
            counter_values 32 step step ≫= λ px,
              if bool_decide (mkSpot px py ∈ spots) then [mkSpot px py]
              else []).
Proof.
  rewrite sampleSpots_closed. apply (f_equal Some).
  apply bind_ext_in. intros py [Hpy _]%elem_of_grid.
  apply bind_ext_in. intros px [Hpx _]%elem_of_grid.
  unfold pushed. rewrite is_dark_dark_at; [done|unfold step in *; lia..].
Qed.

Lemma scan_one_black_pixel (alpha : nat) :
  sampleSpots (MoreExamples.dark_at [mkSpot 15 15] alpha)
  = Some [mkSpot 15 15].
Proof. rewrite scan_dark_at. vm_compute. reflexivity. Qed.

(** The five black pixels come out in row-major order. *)
Lemma scan_five_dark :
  sampleSpots MoreExamples.five_dark
  = Some [mkSpot 15 15; mkSpot 30 15; mkSpot 45 15; mkSpot 15 30;
          mkSpot 30 30].
Proof.
  unfold MoreExamples.five_dark. rewrite scan_dark_at. vm_compute.
  reflexivity.
Qed.

(** Two canvases of full size that differ in the alpha byte of every pixel,
    the black pixel [(15, 15)] of the grid among them: the transparent
    black pixel is a spot all the same. *)
Lemma scan_reads_grid_rgb_only_witness :
  sampleSpots MoreExamples.one_opaque = sampleSpots MoreExamples.one_transparent
  ∧ MoreExamples.one_opaque !! ((15 * 500 + 15) * 4 + 3) = Some 255
  ∧ MoreExamples.one_transparent !! ((15 * 500 + 15) * 4 + 3) = Some 0
  ∧ sampleSpots MoreExamples.one_transparent = Some [mkSpot 15 15].
Proof.
  split_and!.
  - apply (scan_reads_grid_rgb_only MoreExamples.one_opaque
             MoreExamples.one_transparent).
    intros px py c Hpx _ Hpy _ Hc.
    unfold MoreExamples.one_opaque, MoreExamples.one_transparent,
      MoreExamples.dark_at.
    rewrite !canvas_lookup by (unfold step in *; lia).
    by rewrite !(bool_decide_eq_false_2 (c = 3)) by lia.
  - unfold MoreExamples.one_opaque, MoreExamples.dark_at.
    rewrite canvas_lookup by lia. reflexivity.
  - unfold MoreExamples.one_transparent, MoreExamples.dark_at.
    rewrite canvas_lookup by lia. reflexivity.
  - apply scan_one_black_pixel.
Defined.

(** X3. On a buffer of the size of the canvas, 500 x 500 x 4 bytes, the
    three reads of line 41-43 are defined for every pixel of the canvas, so
    the test never compares [undefined]: it holds exactly when one of the
    three bytes read is below 248. *)
Theorem full_buffer_reads_defined (data : list nat) (px py : nat) :
  length data = 500 * 500 * 4 →
  px < 500 →
  py < 500 →
  ∃ r g b,
    data !! ((py * 500 + px) * 4) = Some r
    ∧ data !! ((py * 500 + px) * 4 + 1) = Some g
    ∧ data !! ((py * 500 + px) * 4 + 2) = Some b
    ∧ (is_dark data px py = true ↔ r < 248 ∨ g < 248 ∨ b < 248).
Proof.
  intros Hlen Hpx Hpy.
  assert ((py * 500 + px) * 4 + 2 < length data) as Hin
    by (rewrite Hlen; lia).
  destruct (lookup_lt_is_Some_2 data ((py * 500 + px) * 4)) as [r Hr];
    [lia|].
  destruct (lookup_lt_is_Some_2 data ((py * 500 + px) * 4 + 1)) as [g Hg];
    [lia|].
  destruct (lookup_lt_is_Some_2 data ((py * 500 + px) * 4 + 2)) as [b Hb];
    [lia|].
  exists r, g, b. split_and!; [done..|].
  unfold is_dark. rewrite Hr, Hg, Hb. simpl.
  rewrite !orb_true_iff, !bool_decide_eq_true. tauto.
Qed.

Lemma full_buffer_reads_defined_witness :
  ∃ r g b,
    Examples.white_data !! ((15 * 500 + 15) * 4) = Some r
    ∧ Examples.white_data !! ((15 * 500 + 15) * 4 + 1) = Some g
    ∧ Examples.white_data !! ((15 * 500 + 15) * 4 + 2) = Some b
    ∧ (is_dark Examples.white_data 15 15 = true
       ↔ r < 248 ∨ g < 248 ∨ b < 248).
Proof.
  apply (full_buffer_reads_defined Examples.white_data 15 15).
  - apply length_replicate.
  - lia.
  - lia.
Defined.

End SamplerMore.

(** ** More on note placement *)

Module PlacerMore.
Import Sampler Placer PlacerFacts.

Section WithRandom.
Variable rng : nat → Rand.
Variable number_to_string : Rand → string.
Hypothesis rng_unit : ∀ k, in_unit (rng k).

#[local] Abbreviation place_note := (place_note rng number_to_string).
#[local] Abbreviation drawn s :=
  (floor_mul (rng (calls s)) (length (validSpots s))).
#[local] Abbreviation spots_after N s :=
  (if bool_decide (N < length (validSpots s))
   then delete (drawn s) (validSpots s) else validSpots s).

(** A note placed while more than [melody.length] candidates are left takes
    its spot out of the array, so no later note can get it. *)
Lemma map_from_early_unique (N : nat) (melody : list NoteData) :
  ∀ idx s out s',
    NoDup (validSpots s) →
    length melody ≤ N →
    map_from (place_note N) idx melody s = Some (out, s') →
    ∀ i j p q,
      i < j →
      N + i < length (validSpots s) →
      out !! i = Some p → out !! j = Some q →
      coordinate p ≠ coordinate q.
Proof.
  induction melody as [|n rest IH]; intros idx s out s' Hnd HN Hrun.
  - injection Hrun as <- <-. intros i j p q _ _ Hp.
    by rewrite lookup_nil in Hp.
  - simpl in HN. intros i j p q Hij Hbig Hp Hq.
    assert (0 < length (validSpots s)) as Hlen by lia.
    assert (N < length (validSpots s)) as Hmore by lia.
    destruct (place_note_ok rng number_to_string rng_unit N n idx s Hlen)
      as (c & Hc & Hcall).
    pose proof (spots_after_length rng rng_unit N s Hlen) as Hafter.
    rewrite bool_decide_eq_true_2 in Hcall, Hafter by done.
    rewrite map_from_cons, Hcall in Hrun.
    set (s1 := mkPState (delete (drawn s) (validSpots s)) (S (S (calls s))))
      in *.
    destruct (map_from_ok rng number_to_string rng_unit N rest (S idx) s1)
      as (ps & s2 & Hrest & _ & Hps).
    { lia. }
    { simpl. lia. }
    rewrite Hrest in Hrun. injection Hrun as <- <-.
    destruct j as [|j]; [lia|]. simpl in Hq.
    destruct i as [|i]; simpl in Hp.
    + injection Hp as <-. destruct (Hps j q Hq) as [_ Hmem]. simpl in Hmem.
      intros E. rewrite <- E in Hmem. unfold coordinate in Hmem.
      simpl in Hmem.
      apply (not_elem_of_delete _ _ _ Hnd Hc). by destruct c.
    + apply (IH (S idx) s1 ps s2) with (i := i) (j := j);
        [by apply NoDup_delete|lia|done|lia|simpl; lia|done|done].
Qed.

(** The array after the [map]: what is left of the first one once the
    spliced spots are gone, in the same order. *)
Lemma map_from_shrinks (N : nat) (melody : list NoteData) :
  ∀ idx s out s',
    length melody ≤ N →
    0 < length (validSpots s) →
    map_from (place_note N) idx melody s = Some (out, s') →
    calls s' = calls s + 2 * length melody
    ∧ validSpots s' `sublist_of` validSpots s
    ∧ length (validSpots s')
      = (length (validSpots s) `min` N)
          `max` (length (validSpots s) - length melody).
Proof.
  induction melody as [|n rest IH]; intros idx s out s' HN Hlen Hrun.
  - injection Hrun as <- <-. simpl. split_and!; [lia|done|lia].
  - simpl in HN.
    destruct (place_note_ok rng number_to_string rng_unit N n idx s Hlen)
      as (c & Hc & Hcall).
    pose proof (spots_after_length rng rng_unit N s Hlen) as Hafter.
    rewrite map_from_cons, Hcall in Hrun.
    set (s1 := mkPState (spots_after N s) (S (S (calls s)))) in *.
    destruct (map_from (place_note N) (S idx) rest s1)
      as [[ps s2]|] eqn:Hrest; [|done].
    injection Hrun as <- <-.
    destruct (IH (S idx) s1 ps s2) as (Hcalls & Hsub & Hsize); [lia| |done|].
    { simpl. rewrite Hafter. case_bool_decide; lia. }
    simpl in Hcalls, Hsub, Hsize. split_and!.
    + simpl. lia.
    + etrans; [done|]. case_bool_decide; [apply sublist_delete|done].
    + rewrite Hsize, Hafter. simpl. case_bool_decide; lia.
Qed.
End WithRandom.

(** X4. With pairwise distinct candidates, a note placed while the array
    still holds more than [melody.length] spots keeps its spot to itself:
    the [i]-th note, for [i < M - N], shares its coordinates with no later
    note. Only notes placed after the array has shrunk to [melody.length]
    can collide. *)
Theorem early_notes_keep_their_spot (rng : nat → Rand) (nts : Rand → string)
    (melody : list NoteData) (spots : list Spot) (calls0 : nat) :
  (∀ k, in_unit (rng k)) →
  NoDup spots →
  1 ≤ length spots →
  ∃ out s',
    placeNotes rng nts melody (mkPState spots calls0) = Some (out, s')
    ∧ ∀ i j p q,
        i < j →
        length melody + i < length spots →
        out !! i = Some p → out !! j = Some q →
        coordinate p ≠ coordinate q.
Proof.
  intros Hrng Hnd Hlen.
  destruct (map_from_ok rng nts Hrng (length melody) melody 0
              (mkPState spots calls0))
    as (out & s' & Hrun & _); [done..|].
  exists out, s'. split; [done|].
  by apply (map_from_early_unique rng nts Hrng (length melody) melody 0
              (mkPState spots calls0) out s').
Qed.

Lemma early_notes_keep_their_spot_witness :
  ∃ out s',
    placeNotes Examples.always_zero Examples.show_zero Examples.three_notes
      (mkPState Examples.five_spots 0) = Some (out, s')
    ∧ ∀ i j p q,
        i < j →
        length Examples.three_notes + i < length Examples.five_spots →
        out !! i = Some p → out !! j = Some q →
        coordinate p ≠ coordinate q.
Proof.
  apply (early_notes_keep_their_spot Examples.always_zero Examples.show_zero
           Examples.three_notes Examples.five_spots 0).
  - apply always_zero_unit.
  - apply five_spots_NoDup.
  - simpl. lia.
Defined.

(** X5. The [map] calls [Math.random] exactly twice per note, and it changes
    [validSpots] by splicing only: of [M >= 1] candidates and [N] notes,
    [max (min M N) (M - N)] candidates are left, in their first order. *)
Theorem placement_uses_up_spots (rng : nat → Rand) (nts : Rand → string)
    (melody : list NoteData) (spots : list Spot) (calls0 : nat) :
  (∀ k, in_unit (rng k)) →
  1 ≤ length spots →
  ∃ out s',
    placeNotes rng nts melody (mkPState spots calls0) = Some (out, s')
    ∧ calls s' = calls0 + 2 * length melody
    ∧ validSpots s' `sublist_of` spots
    ∧ length (validSpots s')
      = (length spots `min` length melody)
          `max` (length spots - length melody).
Proof.
  intros Hrng Hlen.
  destruct (map_from_ok rng nts Hrng (length melody) melody 0
              (mkPState spots calls0))
    as (out & s' & Hrun & _); [done..|].
  exists out, s'. split; [done|].
  by apply (map_from_shrinks rng nts Hrng (length melody) melody 0
              (mkPState spots calls0) out s').
Qed.

Lemma placement_uses_up_spots_witness :
  ∃ out s',
    placeNotes Examples.always_zero Examples.show_zero Examples.three_notes
      (mkPState Examples.five_spots 0) = Some (out, s')
    ∧ calls s' = 0 + 2 * length Examples.three_notes
    ∧ validSpots s' `sublist_of` Examples.five_spots
    ∧ length (validSpots s')
      = (length Examples.five_spots `min` length Examples.three_notes)
          `max` (length Examples.five_spots - length Examples.three_notes).
Proof.
  apply (placement_uses_up_spots Examples.always_zero Examples.show_zero
           Examples.three_notes Examples.five_spots 0).
  - apply always_zero_unit.
  - simpl. lia.
Defined.

End PlacerMore.

(** ** More on the generation cycle *)

Module CycleFacts.
Import Sampler Placer App Ui PlacerFacts.

(** [onload] on a scan that found spots: the [map] runs through and its
    result becomes [placedNotes]. *)
Lemma onload_places (rng : nat → Rand) (nts : Rand → string)
    (data : list nat) (melody : list NoteData) (spots : list Spot)
    (calls0 : nat) (a : State) :
  (∀ k, in_unit (rng k)) →
  sampleSpots data = Some spots →
  spots ≠ [] →
  ∃ out s',
    placeNotes rng nts melody (mkPState spots calls0) = Some (out, s')
    ∧ note <$> out = melody
    ∧ Forall (λ p, coordinate p ∈ spots) out
    ∧ onload rng nts data melody calls0 a
      = Done (setPlacedNotes out a) (calls s').
Proof.
  intros Hrng Hscan Hne.
  unfold onload. rewrite Hscan. clear Hscan.
  assert (0 < length spots) as Hlen.
  { destruct spots; [by destruct Hne|simpl; lia]. }
  destruct (map_from_ok rng nts Hrng (length melody) melody 0
              (mkPState spots calls0))
    as (out & s' & Hrun & Hnotes & Hout); [done..|].
  exists out, s'. split_and!; [done|done| |].
  - apply Forall_lookup. intros i p Hi. by destruct (Hout i p Hi).
  - rewrite bool_decide_eq_false_2 by lia.
    unfold placeNotes in Hrun. unfold placeNotes. by rewrite Hrun.
Qed.

(** X6. The handler [img.onload], whenever it runs and whatever the state
    of the component then is, returns without a [TypeError] and after a scan
    that ends, and it writes at most one cell of the state. Without a 2d
    context it changes nothing. On a scan that finds no spot it sets the
    error message and draws no random number. Otherwise it replaces
    [placedNotes] by one placed note per note of the melody, in order, each
    on a spot that the scan found, after two calls of [Math.random] per
    note. It never touches [isLoading], [isPlaying], [currentNoteIndex],
    [playbackRef]. *)
Theorem onload_always_completes (rng : nat → Rand) (nts : Rand → string)
    (ctx : bool) (data : list nat) (melody : list NoteData) (calls0 : nat)
    (a : State) :
  (∀ k, in_unit (rng k)) →
  ∃ spots,
    sampleSpots data = Some spots
    ∧ ((ctx = false
        ∧ img_onload rng nts ctx data melody calls0 a = Done a calls0)
       ∨ (ctx = true ∧ spots = []
          ∧ img_onload rng nts ctx data melody calls0 a
            = Done (setError (Some no_shape_message) a) calls0)
       ∨ (ctx = true ∧ spots ≠ []
          ∧ ∃ out,
              img_onload rng nts ctx data melody calls0 a
              = Done (setPlacedNotes out a) (calls0 + 2 * length melody)
              ∧ note <$> out = melody
              ∧ Forall (λ p, coordinate p ∈ spots) out)).
Proof.
  intros Hrng.
  pose proof (SamplerFacts.sampleSpots_closed data) as Hscan.
  set (spots := _ ≫= _) in Hscan.
  exists spots. split; [exact Hscan|].
  destruct ctx; [|left; split; reflexivity].
  right. destruct (decide (spots = [])) as [Hnone|Hsome].
  - left. split; [reflexivity|]. split; [exact Hnone|].
    unfold img_onload, onload. rewrite Hscan. clear Hscan. rewrite Hnone.
    rewrite bool_decide_eq_true_2 by reflexivity. reflexivity.
  - right. split; [reflexivity|]. split; [exact Hsome|].
    destruct (onload_places rng nts data melody spots calls0 a Hrng Hscan
                Hsome) as (out & s' & Hrun & Hnotes & Hout & Hload).
    clear Hscan.
    assert (0 < length spots) as Hlen.
    { destruct spots; [by destruct Hsome|simpl; lia]. }
    destruct (PlacerMore.map_from_shrinks rng nts Hrng (length melody) melody
                0 (mkPState spots calls0) out s') as (Hcalls & _);
      [lia|exact Hlen|exact Hrun|].
    exists out. split; [|split; [exact Hnotes|exact Hout]].
    unfold img_onload. cbn [negb]. rewrite Hload.
    apply (f_equal (Done (setPlacedNotes out a))). exact Hcalls.
Qed.

(** The handler on the canvas with five black pixels and three notes, in a
    state where a playback is running. *)
Lemma onload_always_completes_witness :
  ∃ spots,
    sampleSpots MoreExamples.five_dark = Some spots
    ∧ ((true = false
        ∧ img_onload MoreExamples.tenths MoreExamples.show_tenths true
            MoreExamples.five_dark Examples.three_notes 0
            (Scheduler.app Examples.playing)
          = Done (Scheduler.app Examples.playing) 0)
       ∨ (true = true ∧ spots = []
          ∧ img_onload MoreExamples.tenths MoreExamples.show_tenths true
              MoreExamples.five_dark Examples.three_notes 0
              (Scheduler.app Examples.playing)
            = Done (setError (Some no_shape_message)
                      (Scheduler.app Examples.playing)) 0)
       ∨ (true = true ∧ spots ≠ []
          ∧ ∃ out,
              img_onload MoreExamples.tenths MoreExamples.show_tenths true
                MoreExamples.five_dark Examples.three_notes 0
                (Scheduler.app Examples.playing)
              = Done (setPlacedNotes out (Scheduler.app Examples.playing))
                  (0 + 2 * length Examples.three_notes)
              ∧ note <$> out = Examples.three_notes
              ∧ Forall (λ p, coordinate p ∈ spots) out)).
Proof.
  apply (onload_always_completes MoreExamples.tenths MoreExamples.show_tenths
           true MoreExamples.five_dark Examples.three_notes 0
           (Scheduler.app Examples.playing)).
  apply tenths_unit.
Defined.

(** The handler with no context, and the handler that arrives while a
    playback is running: the first leaves no message and no note, the second
    places its notes and leaves the playback as it is. *)
Lemma onload_leaves_playback_alone (rng : nat → Rand) (nts : Rand → string)
    (ctx : bool) (data : list nat) (melody : list NoteData) (calls0 : nat)
    (a a' : State) (calls' : nat) :
  img_onload rng nts ctx data melody calls0 a = Done a' calls' →
  isLoading a' = isLoading a
  ∧ isPlaying a' = isPlaying a
  ∧ currentNoteIndex a' = currentNoteIndex a
  ∧ playbackRef a' = playbackRef a
  ∧ (ctx = false → a' = a ∧ calls' = calls0).
Proof.
  unfold img_onload. destruct ctx; cbn [negb].
  - unfold onload. destruct (sampleSpots data) as [spots|]; [|done].
    case_bool_decide.
    + intros [= <- <-]. split_and!; [done..|]. done.
    + destruct (placeNotes rng nts melody _) as [[out s']|]; [|done].
      intros [= <- <-]. split_and!; [done..|]. done.
  - intros [= <- <-]. split_and!; done.
Qed.

(** X7. When the scan finds at least [2N - 1] spots for a melody of
    [N >= 1] notes, the handler, in whatever state it runs, ends with [N]
    placed notes on pairwise distinct coordinates: the spots of a scan are
    distinct, and all notes but the last take theirs out of the array. *)
Theorem onload_places_on_distinct_spots (rng : nat → Rand)
    (nts : Rand → string) (data : list nat) (melody : list NoteData)
    (spots : list Spot) (calls0 : nat) (a : State) :
  (∀ k, in_unit (rng k)) →
  sampleSpots data = Some spots →
  1 ≤ length melody →
  2 * length melody ≤ S (length spots) →
  ∃ out calls',
    img_onload rng nts true data melody calls0 a
    = Done (setPlacedNotes out a) calls'
    ∧ length out = length melody
    ∧ NoDup (coordinate <$> out).
Proof.
  intros Hrng Hscan HN HM.
  assert (NoDup spots) as Hnd.
  { pose proof (SamplerFacts.sampleSpots_closed data) as Hclosed.
    rewrite Hscan in Hclosed. apply (inj Some) in Hclosed. rewrite Hclosed.
    eapply SamplerMore.sorted_NoDup;
      [apply SamplerMore.row_major_irrefl
      |apply SamplerMore.closed_form_sorted]. }
  assert (spots ≠ []) as Hne.
  { intros ->. simpl in HM. lia. }
  destruct (onload_places rng nts data melody spots calls0 a Hrng Hscan Hne)
    as (out & s' & Hrun & Hnotes & _ & Hload).
  clear Hscan.
  exists out, (calls s'). split; [exact Hload|]. split.
  - by rewrite <- Hnotes, length_fmap.
  - apply (map_from_distinct rng nts Hrng (length melody) melody 0
             (mkPState spots calls0) out s'); [done|done|simpl; lia|done].
Qed.

(** Three notes on the canvas with five black pixels, the draws being
    [0.6]: the indices 3, 2 and 1 are drawn from 5, 4 and 3 spots. *)
Lemma onload_places_on_distinct_spots_witness :
  ∃ out calls',
    img_onload MoreExamples.tenths MoreExamples.show_tenths true
      MoreExamples.five_dark Examples.three_notes 0 initial
    = Done (setPlacedNotes out initial) calls'
    ∧ length out = length Examples.three_notes
    ∧ NoDup (coordinate <$> out).
Proof.
  apply (onload_places_on_distinct_spots MoreExamples.tenths
           MoreExamples.show_tenths MoreExamples.five_dark
           Examples.three_notes
           [mkSpot 15 15; mkSpot 30 15; mkSpot 45 15; mkSpot 15 30;
            mkSpot 30 30] 0 initial).
  - apply tenths_unit.
  - apply SamplerMore.scan_five_dark.
  - simpl. lia.
  - simpl. lia.
Defined.

(** The notes of that run: the spots at the indices 3, 2 and 1 of what is
    left of the five. *)
Lemma three_notes_on_five_dark :
  (λ r : list PlacedNote * PState, map coordinate r.1)
    <$> placeNotes MoreExamples.tenths MoreExamples.show_tenths
          Examples.three_notes
          (mkPState [mkSpot 15 15; mkSpot 30 15; mkSpot 45 15; mkSpot 15 30;
                     mkSpot 30 30] 0)
  = Some [mkSpot 15 30; mkSpot 45 15; mkSpot 30 15].
Proof. vm_compute. reflexivity. Qed.

(** *** The guard on the prompt *)

Lemma trimStart_blank (s : list N) :
  trimStart s = [] ↔ Forall (λ c, white_space c = true) s.
Proof.
  induction s as [|c s IH]; simpl.
  - split; [constructor|done].
  - destruct (white_space c) eqn:Hc.
    + rewrite IH. split; [by constructor|]. by intros [_ ?]%Forall_cons.
    + split; [done|]. intros [? _]%Forall_cons. congruence.
Qed.

(** [trimStart] removes a prefix: what it returns is a suffix of its
    argument. *)
Lemma trimStart_suffix (s : list N) : trimStart s `suffix_of` s.
Proof.
  induction s as [|c s IH]; simpl; [done|].
  destruct (white_space c); [|done]. by apply suffix_cons_r.
Qed.

(** What [trimStart] returns does not start with white space. *)
Lemma trimStart_head (s : list N) (c : N) (t : list N) :
  trimStart s = c :: t → white_space c = false.
Proof.
  induction s as [|d s IH]; simpl; [done|].
  destruct (white_space d) eqn:Hd; [done|]. by intros [= <- _].
Qed.

(** [trim] gives the empty string exactly on strings of white space. *)
Lemma trim_blank (s : list N) :
  trim s = [] ↔ Forall (λ c, white_space c = true) s.
Proof.
  unfold trim. split.
  - intros E. apply (f_equal reverse) in E.
    rewrite reverse_involutive, reverse_nil in E.
    apply trimStart_blank in E. rewrite Forall_reverse in E.
    apply trimStart_blank.
    destruct (trimStart s) as [|c t] eqn:Ht; [done|].
    apply trimStart_head in Ht. apply Forall_cons in E as [E _]. congruence.
  - intros Hall. apply trimStart_blank in Hall. by rewrite Hall.
Qed.

(** X8. On a prompt that is empty or holds white space only,
    [handleGenerate] returns at its first line: the state, with its placed
    notes, error message and playback, is untouched and no random number is
    drawn, whatever the services would have answered. *)
Theorem blank_prompt_ignored (rng : nat → Rand) (nts : Rand → string)
    (prompt : list N) (g : Generated) (calls0 : nat) (a : State) :
  Forall (λ c, white_space c = true) prompt →
  handleGenerate rng nts prompt g calls0 a = Done a calls0.
Proof.
  intros Hblank%trim_blank. unfold handleGenerate.
  by rewrite bool_decide_eq_true_2.
Qed.

Lemma blank_prompt_ignored_witness :
  handleGenerate Examples.always_zero Examples.show_zero
    MoreExamples.blank_prompt
    (GenImage MoreExamples.one_dark_pixel Examples.three_notes) 0
    (setPlacedNotes Examples.two_placed initial)
  = Done (setPlacedNotes Examples.two_placed initial) 0.
Proof.
  apply (blank_prompt_ignored Examples.always_zero Examples.show_zero
           MoreExamples.blank_prompt
           (GenImage MoreExamples.one_dark_pixel Examples.three_notes) 0
           (setPlacedNotes Examples.two_placed initial)).
  repeat constructor.
Defined.

(** A prompt with a character that is not white space goes on to the
    cycle. *)
Lemma real_prompt_generates (rng : nat → Rand) (nts : Rand → string)
    (prompt : list N) (g : Generated) (calls0 : nat) (a : State) :
  ¬ Forall (λ c, white_space c = true) prompt →
  handleGenerate rng nts prompt g calls0 a
  = generationCycle rng nts g calls0 a.
Proof.
  intros Hreal. unfold handleGenerate.
  rewrite bool_decide_eq_false_2; [done|]. by rewrite trim_blank.
Qed.

End CycleFacts.

(** ** More on playback *)

Module SchedulerMore.
Import Placer App Scheduler Ui SchedulerFacts.

(** *** What holds in every state *)

Lemma mirror_step (s : Sched) (e : Event) :
  playbackRef (app s) = isPlaying (app s) →
  playbackRef (app (dispatch s e)) = isPlaying (app (dispatch s e)).
Proof.
  intros Hs. destruct e as [|pid|pid]; simpl.
  - unfold togglePlayback. destruct (isPlaying (app s)) eqn:Hplaying; [done|].
    case_bool_decide; [by rewrite Hplaying|].
    rewrite loop_head_plays; [done|done|lia].
  - unfold noteDone. destruct (find_pass pid s) as [p|]; [|done].
    by destruct (loop_head_cases pid (pass_notes p) (S (pass_index p))
                   (drop_pass pid s)) as [->|(_ & _ & ->)].
  - unfold noteFailed. by destruct (find_pass pid s).
Qed.

Lemma index_step (notes : list PlacedNote) (s : Sched) (e : Event) :
  consistent notes s →
  (∀ i, currentNoteIndex (app s) = Some i → i < length notes) →
  ∀ i, currentNoteIndex (app (dispatch s e)) = Some i → i < length notes.
Proof.
  intros (Hnotes & _ & Hpass & _) Hs. destruct e as [|pid|pid]; simpl.
  - unfold togglePlayback. destruct (isPlaying (app s)); [done|].
    case_bool_decide as Hempty; [done|].
    rewrite loop_head_plays; [|done|lia]. simpl.
    intros i [= <-]. rewrite <- Hnotes. lia.
  - unfold noteDone. destruct (find_pass pid s) as [p|] eqn:Hfind; [|done].
    apply find_pass_Some in Hfind as [Hp _].
    destruct (Hpass p Hp) as (_ & Hpn & _).
    destruct (loop_head_cases pid (pass_notes p) (S (pass_index p))
                (drop_pass pid s)) as [->|(Hi & _ & ->)]; [done|].
    simpl. intros i [= <-]. by rewrite <- Hpn.
  - unfold noteFailed. by destruct (find_pass pid s).
Qed.

Lemma reachable_facts (notes : list PlacedNote) (es : list Event) :
  ∀ s,
    consistent notes s →
    playbackRef (app s) = isPlaying (app s) →
    (∀ i, currentNoteIndex (app s) = Some i → i < length notes) →
    playbackRef (app (run s es)) = isPlaying (app (run s es))
    ∧ (∀ i, currentNoteIndex (app (run s es)) = Some i → i < length notes).
Proof.
  induction es as [|e es IH]; intros s Hs Hmirror Hindex; [done|].
  simpl. apply IH.
  - by apply consistent_step.
  - by apply mirror_step.
  - by apply index_step.
Qed.

(** X9. In every state the scheduler reaches, whatever the events
    (restarts and failures included): the flag [playbackRef.current] equals
    [isPlaying], playback has not changed [placedNotes], and
    [currentNoteIndex], when set, is the index of a placed note. *)
Theorem flag_mirrors_state_index_in_range (notes : list PlacedNote)
    (es : list Event) :
  let s := run (loaded notes) es in
  playbackRef (app s) = isPlaying (app s)
  ∧ placedNotes (app s) = notes
  ∧ ∀ i, currentNoteIndex (app s) = Some i → i < length notes.
Proof.
  intros s.
  destruct (reachable_facts notes es (loaded notes)) as [Hmirror Hindex];
    [apply consistent_loaded|done|done|].
  pose proof (consistent_run notes es _ (consistent_loaded notes))
    as (Hnotes & _).
  done.
Qed.

(** *** Without failures *)

Lemma busy_step (s : Sched) (e : Event) :
  no_failure e →
  (isPlaying (app s) = true → passes s ≠ []) →
  isPlaying (app (dispatch s e)) = true → passes (dispatch s e) ≠ [].
Proof.
  intros He Hs. destruct e as [|pid|pid]; simpl.
  - unfold togglePlayback. destruct (isPlaying (app s)) eqn:Hplaying; [done|].
    case_bool_decide; [by rewrite Hplaying|].
    rewrite loop_head_plays; [|done|lia]. simpl.
    intros _ E. by apply app_nil in E as [_ ?].
  - unfold noteDone. destruct (find_pass pid s) as [p|]; [|done].
    destruct (loop_head_cases pid (pass_notes p) (S (pass_index p))
                (drop_pass pid s)) as [->|(_ & _ & ->)]; [done|].
    simpl. intros _ E. by apply app_nil in E as [_ ?].
  - by destruct (He pid).
Qed.

(** X10. As long as no tone fails, [isPlaying] is true only while an
    invocation of [togglePlayback] is suspended on a note: the scheduler is
    never shown as playing with nothing left to end the pass. *)
Theorem playing_means_a_pass_runs (notes : list PlacedNote)
    (es : list Event) :
  Forall no_failure es →
  let s := run (loaded notes) es in
  isPlaying (app s) = true → passes s ≠ [].
Proof.
  intros Hes. simpl.
  assert (∀ s, (isPlaying (app s) = true → passes s ≠ []) →
               isPlaying (app (run s es)) = true → passes (run s es) ≠ [])
    as Hrun.
  { induction Hes as [|e es He _ IH]; intros s Hs; [done|].
    simpl. apply IH. by apply busy_step. }
  by apply Hrun.
Qed.

Lemma playing_means_a_pass_runs_witness :
  passes (run (loaded Examples.two_placed) [Toggle; NoteDone 0]) ≠ [].
Proof.
  apply (playing_means_a_pass_runs Examples.two_placed [Toggle; NoteDone 0]).
  - repeat constructor; by intros pid.
  - reflexivity.
Defined.

(** The current index names the sounding note: either nothing is suspended
    and no index is set, or one invocation is and the index is its own. *)
Lemma sounding_step (s : Sched) (e : Event) :
  no_failure e →
  (is_start s e → passes s = []) →
  (passes s = [] ∧ currentNoteIndex (app s) = None
   ∨ ∃ p, passes s = [p] ∧ currentNoteIndex (app s) = Some (pass_index p)) →
  passes (dispatch s e) = [] ∧ currentNoteIndex (app (dispatch s e)) = None
  ∨ ∃ p, passes (dispatch s e) = [p]
         ∧ currentNoteIndex (app (dispatch s e)) = Some (pass_index p).
Proof.
  intros He Hcalm Hs. destruct e as [|pid|pid]; simpl.
  - unfold togglePlayback. destruct (isPlaying (app s)) eqn:Hplaying; [done|].
    case_bool_decide; [done|].
    rewrite loop_head_plays; [|done|lia]. simpl.
    rewrite Hcalm by done. right. by eexists.
  - unfold noteDone. destruct (find_pass pid s) as [p|] eqn:Hfind; [|done].
    apply find_pass_Some in Hfind as [Hp <-].
    destruct Hs as [[Hnone _]|(q & Hq & _)].
    { rewrite Hnone in Hp. by apply elem_of_nil in Hp. }
    rewrite Hq in Hp. apply list_elem_of_singleton in Hp as ->.
    pose proof (drop_pass_single q s Hq) as Hdrop.
    destruct (loop_head_cases (pass_id q) (pass_notes q) (S (pass_index q))
                (drop_pass (pass_id q) s)) as [->|(_ & _ & ->)].
    + left. split; [|done]. by rewrite (proj1 (finish_passes _)).
    + right. cbn [passes app]. rewrite Hdrop. by eexists.
  - by destruct (He pid).
Qed.

Lemma sounding_run (es : list Event) :
  ∀ s,
    Forall no_failure es →
    calm s es →
    (passes s = [] ∧ currentNoteIndex (app s) = None
     ∨ ∃ p, passes s = [p] ∧ currentNoteIndex (app s) = Some (pass_index p)) →
    passes (run s es) = [] ∧ currentNoteIndex (app (run s es)) = None
    ∨ ∃ p, passes (run s es) = [p]
           ∧ currentNoteIndex (app (run s es)) = Some (pass_index p).
Proof.
  induction es as [|e es IH]; intros s Hes Hcalm Hs; [done|].
  apply Forall_cons in Hes as [He Hes]. destruct Hcalm as [Hhere Hrest].
  simpl. apply IH; [done|done|]. by apply sounding_step.
Qed.

(** X11. As long as no tone fails and the button is not pressed to start
    while an invocation is still suspended, [currentNoteIndex] is exactly
    the note that is sounding: it is none when no invocation is suspended,
    and otherwise the index of the one note being awaited. *)
Theorem current_index_is_sounding_note (notes : list PlacedNote)
    (es : list Event) :
  Forall no_failure es →
  calm (loaded notes) es →
  let s := run (loaded notes) es in
  passes s = [] ∧ currentNoteIndex (app s) = None
  ∨ ∃ p, passes s = [p]
         ∧ currentNoteIndex (app s) = Some (pass_index p)
         ∧ pass_index p < length notes.
Proof.
  intros Hes Hcalm s.
  destruct (sounding_run es (loaded notes) Hes Hcalm) as [?|(p & Hp & Hidx)].
  { by left. }
  { by left. }
  right. exists p. split_and!; [done..|].
  pose proof (consistent_run notes es _ (consistent_loaded notes))
    as (_ & _ & Hpass & _).
  destruct (Hpass p) as (_ & _ & Hi & _); [|done].
  rewrite Hp. by apply list_elem_of_singleton.
Qed.

Lemma current_index_is_sounding_note_witness :
  let s := run (loaded Examples.two_placed) [Toggle; NoteDone 0; Toggle] in
  passes s = [] ∧ currentNoteIndex (app s) = None
  ∨ ∃ p, passes s = [p]
         ∧ currentNoteIndex (app s) = Some (pass_index p)
         ∧ pass_index p < length Examples.two_placed.
Proof.
  apply (current_index_is_sounding_note Examples.two_placed
           [Toggle; NoteDone 0; Toggle]).
  - repeat constructor; by intros pid.
  - simpl. unfold is_start. repeat split; intros [? ?]; done.
Defined.

(** *** A whole pass *)

(** From an invocation suspended on note [i], with the flag set: as the
    notes finish one after the other, the loop plays the notes after [i] in
    order and then runs the three lines after it. *)
Lemma play_through (pid : nat) (notes : list PlacedNote) (k : nat) :
  ∀ i s,
    passes s = [mkPass pid notes i] →
    playbackRef (app s) = true →
    i + S k = length notes →
    let s' := run s (replicate (S k) (NoteDone pid)) in
    passes s' = []
    ∧ played s' = played s ++ ((λ j, (pid, j)) <$> seq (S i) k)
    ∧ app s'
      = setPlaybackRef false
          (setIsPlaying false (setCurrentNoteIndex None (app s))).
Proof.
  induction k as [|k IH]; intros i s Hp Href Hi;
    pose proof (find_pass_single _ s Hp) as Hfind;
    pose proof (drop_pass_single _ s Hp) as Hdrop;
    cbn [pass_id] in Hfind, Hdrop.
  - simpl. unfold noteDone. rewrite Hfind. simpl.
    unfold loop_head. rewrite bool_decide_eq_false_2 by lia.
    split_and!; [done|by rewrite app_nil_r|done].
  - change (replicate (S (S k)) (NoteDone pid))
      with (NoteDone pid :: replicate (S k) (NoteDone pid)).
    cbn [run foldl]. fold (run (dispatch s (NoteDone pid))
                             (replicate (S k) (NoteDone pid))).
    assert (dispatch s (NoteDone pid)
            = mkSched (setCurrentNoteIndex (Some (S i)) (app s))
                      [mkPass pid notes (S i)]
                      (played s ++ [(pid, S i)]) (started s)) as ->.
    { simpl. unfold noteDone. rewrite Hfind. cbn [pass_notes pass_index].
      rewrite loop_head_plays; [|done|lia]. by rewrite Hdrop. }
    destruct (IH (S i) (mkSched (setCurrentNoteIndex (Some (S i)) (app s))
                          [mkPass pid notes (S i)]
                          (played s ++ [(pid, S i)]) (started s)))
      as (Hnone & Hplayed & Happ); [done|done|lia|].
    split_and!; [done| |by rewrite Happ].
    rewrite Hplayed. cbn [played]. by rewrite <- app_assoc.
Qed.

(** X12. From a state with nothing suspended, [isPlaying] false and at
    least one placed note, a press of the button followed by the completion
    of every note in turn plays all the notes once, in the order of
    [placedNotes], and ends idle: nothing suspended, [isPlaying] false, no
    current index, the flag cleared. The result is again such a state, so
    the pass can be replayed. *)
Theorem uninterrupted_pass_plays_all (s : Sched) :
  passes s = [] →
  isPlaying (app s) = false →
  placedNotes (app s) ≠ [] →
  let notes := placedNotes (app s) in
  let pid := started s in
  let s' := run s (Toggle :: replicate (length notes) (NoteDone pid)) in
  played s' = played s ++ ((λ i, (pid, i)) <$> seq 0 (length notes))
  ∧ passes s' = []
  ∧ isPlaying (app s') = false
  ∧ currentNoteIndex (app s') = None
  ∧ playbackRef (app s') = false
  ∧ placedNotes (app s') = notes.
Proof.
  intros Hnone Hidle Hne notes pid s'.
  assert (∃ k, length notes = S k) as [k Hk].
  { unfold notes. destruct (placedNotes (app s)); [done|by eexists]. }
  unfold s'. rewrite Hk. cbn [run foldl].
  fold (run (dispatch s Toggle) (replicate (S k) (NoteDone pid))).
  assert (dispatch s Toggle
          = mkSched (setCurrentNoteIndex (Some 0)
                       (setPlaybackRef true (setIsPlaying true (app s))))
                    [mkPass pid notes 0] (played s ++ [(pid, 0)])
                    (S (started s))) as ->.
  { simpl. unfold togglePlayback. rewrite Hidle.
    rewrite bool_decide_eq_false_2 by (fold notes; lia).
    rewrite loop_head_plays; [|done|fold notes; lia].
    cbn [passes app played started]. by rewrite Hnone. }
  destruct (play_through pid notes k 0
              (mkSched (setCurrentNoteIndex (Some 0)
                          (setPlaybackRef true (setIsPlaying true (app s))))
                       [mkPass pid notes 0] (played s ++ [(pid, 0)])
                       (S (started s))))
    as (Hpasses & Hplayed & Happ); [done|done|lia|].
  split_and!; [|done|by rewrite Happ..].
  rewrite Hplayed. cbn [played]. by rewrite <- app_assoc.
Qed.

Lemma uninterrupted_pass_plays_all_witness :
  let notes := placedNotes (app Examples.ready) in
  let pid := started Examples.ready in
  let s' :=
    run Examples.ready (Toggle :: replicate (length notes) (NoteDone pid)) in
  played s'
  = played Examples.ready ++ ((λ i, (pid, i)) <$> seq 0 (length notes))
  ∧ passes s' = []
  ∧ isPlaying (app s') = false
  ∧ currentNoteIndex (app s') = None
  ∧ playbackRef (app s') = false
  ∧ placedNotes (app s') = notes.
Proof.
  apply (uninterrupted_pass_plays_all Examples.ready); [reflexivity..|].
  discriminate.
Defined.

(** *** A new prompt during playback *)

(** The writes of a cycle leave the playback cells alone. *)
Lemma cycleWrites_keep (ws : list CycleWrite) :
  ∀ a,
    playbackRef (foldl cycleWrite a ws) = playbackRef a
    ∧ isPlaying (foldl cycleWrite a ws) = isPlaying a
    ∧ currentNoteIndex (foldl cycleWrite a ws) = currentNoteIndex a.
Proof.
  induction ws as [|w ws IH]; intros a; [done|].
  simpl. destruct (IH (cycleWrite a w)) as (-> & -> & ->).
  by destruct w.
Qed.

(** Lines 121-123 change nothing in a state that is idle already. *)
Lemma finish_idle (a : State) :
  currentNoteIndex a = None → isPlaying a = false → playbackRef a = false →
  setPlaybackRef false (setIsPlaying false (setCurrentNoteIndex None a)) = a.
Proof. destruct a. simpl. by intros -> -> ->. Qed.

(** X13. The resets at the start of [handleGenerate], made while an
    invocation of [togglePlayback] is suspended on a note, leave that note
    sounding; until new notes are placed a press of the button does
    nothing. Provided the button is not pressed before the note finishes:
    whatever the cycle has written by then (a message, the end of loading,
    the new notes), when the note finishes the invocation ends without
    playing another note and without changing the state of the new cycle,
    and nothing is left suspended. *)
Theorem new_prompt_cancels_playback (s : Sched) (p : Pass)
    (ws : list CycleWrite) :
  passes s = [p] →
  let s1 := startGenerate s in
  let s2 := cycleWrites ws s1 in
  let s3 := dispatch s2 (NoteDone (pass_id p)) in
  (passes s1 = [p] ∧ played s1 = played s)
  ∧ dispatch s1 Toggle = s1
  ∧ (passes s2 = [p] ∧ played s2 = played s)
  ∧ passes s3 = []
  ∧ played s3 = played s
  ∧ app s3 = app s2
  ∧ ∀ es, Forall (λ e, e ≠ Toggle) es → run s3 es = s3.
Proof.
  intros Hp s1 s2 s3.
  destruct (cycleWrites_keep ws (app s1)) as (Href & Hplaying & Hidx).
  assert (s3 = finish (drop_pass (pass_id p) s2)) as Hs3.
  { unfold s3. simpl. unfold noteDone.
    rewrite (find_pass_single p) by done.
    by rewrite loop_head_cancelled. }
  assert (passes s3 = []) as Hnone.
  { rewrite Hs3. apply (drop_pass_single p s2). done. }
  split_and!; [done|done|done|done|done|done| | |].
  - by rewrite Hs3.
  - rewrite Hs3. by apply finish_idle.
  - intros es. by apply idle_ignores_note_events.
Qed.

(** Note 0 of two is sounding when a new prompt is sent; the cycle ends
    loading and places one new note before the old note finishes. *)
Lemma new_prompt_cancels_playback_witness :
  let ws :=
    [WriteLoaded; WritePlaced [mkPlaced Examples.c4 "note-0-0.3" 45 15]] in
  let s1 := startGenerate Examples.playing in
  let s2 := cycleWrites ws s1 in
  let s3 := dispatch s2 (NoteDone (pass_id Examples.first_pass)) in
  (passes s1 = [Examples.first_pass] ∧ played s1 = played Examples.playing)
  ∧ dispatch s1 Toggle = s1
  ∧ (passes s2 = [Examples.first_pass] ∧ played s2 = played Examples.playing)
  ∧ passes s3 = []
  ∧ played s3 = played Examples.playing
  ∧ app s3 = app s2
  ∧ ∀ es, Forall (λ e, e ≠ Toggle) es → run s3 es = s3.
Proof.
  apply (new_prompt_cancels_playback Examples.playing Examples.first_pass
           [WriteLoaded;
            WritePlaced [mkPlaced Examples.c4 "note-0-0.3" 45 15]]).
  reflexivity.
Defined.

(** Why the proviso: with the new note placed and the button pressed before
    the old note has finished, the old invocation finds the flag set again,
    hands note 1 of the old notes to [playNote] and makes 1 the current
    index, over a list of one note. *)
Lemma play_before_old_note_ends :
  let ws :=
    [WriteLoaded; WritePlaced [mkPlaced Examples.c4 "note-0-0.3" 45 15]] in
  let s2 := cycleWrites ws (startGenerate Examples.playing) in
  let s4 := run s2 [Toggle; NoteDone 0] in
  played s4 = [(0, 0); (1, 0); (0, 1)]
  ∧ currentNoteIndex (app s4) = Some 1
  ∧ length (placedNotes (app s4)) = 1.
Proof. split_and!; reflexivity. Qed.

(** *** The orbs *)

Lemma orbs_lookup (a : State) (i : nat) (o : Orb) :
  orbs a !! i = Some o →
  ∃ n, placedNotes a !! i = Some n
       ∧ key o = id n ∧ left o = x n ∧ top o = y n
       ∧ label o = value (note n)
       ∧ (lit o = true ↔ currentNoteIndex a = Some i).
Proof.
  unfold orbs. rewrite list_lookup_imap.
  destruct (placedNotes a !! i) as [n|]; [|done].
  intros [= <-]. exists n. split_and!; [done..|].
  simpl. by rewrite bool_decide_eq_true.
Qed.

(** X14. As long as no tone fails and the button is not pressed to start
    while an invocation is still suspended, the view shows one orb per
    placed note and lights exactly the orb of the note that is sounding:
    orb [i] is lit if and only if the one suspended invocation waits on
    note [i]; with nothing suspended no orb is lit. *)
Theorem lit_orb_is_sounding_note (notes : list PlacedNote)
    (es : list Event) :
  Forall no_failure es →
  calm (loaded notes) es →
  let s := run (loaded notes) es in
  length (orbs (app s)) = length notes
  ∧ ∀ i o, orbs (app s) !! i = Some o →
      (lit o = true ↔ ∃ p, passes s = [p] ∧ pass_index p = i).
Proof.
  intros Hes Hcalm s. subst s.
  pose proof (consistent_run notes es _ (consistent_loaded notes))
    as (Hnotes & _).
  split.
  - unfold orbs. rewrite length_imap. exact (f_equal length Hnotes).
  - intros i o (n & _ & _ & _ & _ & _ & ->)%orbs_lookup.
    destruct (sounding_run es (loaded notes) Hes Hcalm)
      as [[Hnone Hidx]|(p & Hp & Hidx)]; [by left|..].
    + rewrite Hidx, Hnone. split; [done|]. by intros (p & ? & _).
    + rewrite Hidx, Hp. split.
      * intros [= <-]. by exists p.
      * by intros (q & [= <-] & <-).
Qed.

Lemma lit_orb_is_sounding_note_witness :
  let s := run (loaded Examples.two_placed) [Toggle; NoteDone 0] in
  length (orbs (app s)) = length Examples.two_placed
  ∧ ∀ i o, orbs (app s) !! i = Some o →
      (lit o = true ↔ ∃ p, passes s = [p] ∧ pass_index p = i).
Proof.
  apply (lit_orb_is_sounding_note Examples.two_placed [Toggle; NoteDone 0]).
  - repeat constructor; by intros pid.
  - simpl. unfold is_start. repeat split; intros [? ?]; done.
Defined.

End SchedulerMore.
